(** * gsheet-bun: filtered tabular data access layer

    A shallow embedding of [src/sheets/filters.ts] (the predicate
    engine) and [src/sheets/service.ts] (read-through cache, dedup
    post-filter, write coordinator), with the properties of the
    specification stated and settled over it.

    Conventions.
    - JavaScript values reaching this code come from JSON request bodies
      and from the Sheets API: [jsval] has [undefined], [null], booleans,
      numbers, strings, arrays and plain objects (no [Date] instance, no
      function, no symbol can arrive that way).
    - Strings are Rocq strings (sequences of 8-bit characters); [trim],
      [toLowerCase] and the relational operators are the ASCII
      restrictions of the ECMAScript ones: the Unicode white space
      [trim] also strips and the non-ASCII letters [toLowerCase] also
      folds are outside the model, and no property below is about them.
    - [String(v)] and the property read [row[v]] throw a TypeError on a
      plain object that owns a [toString] property (and on an array
      holding one).  [js_to_string] gives the string for the values on
      which the conversion returns, the predicate [printable]; a
      property that states an outcome of code converting a request
      value carries [printable] as a hypothesis.
    - A record is the list of its properties.  The order in which
      ECMAScript enumerates them (integer-like keys first) is not
      modelled: the embedded code reads properties by name, and no
      property below is about the order of the keys.
    - Numbers are IEEE doubles in the source.  Their operations, the
      runtime's [parseFloat] and [Date] parser are fields of the class
      [JsRuntime]; every general theorem holds for any runtime.
    - A JavaScript exception is the [Raise] constructor of [result]. *)

From Stdlib Require Import ZArith Lia Ascii String.
From stdpp Require Import base option list strings gmap.

Local Open Scope string_scope.
Local Open Scope list_scope.
Set Warnings "-register-all".

(** ** Strings *)

Module Str.

Definition is_ws (a : ascii) : bool :=
  let n := nat_of_ascii a in
  ((9 <=? n) && (n <=? 13))%nat || (n =? 32)%nat.

Fixpoint trimStart (s : string) : string :=
  match s with
  | String a s' => if is_ws a then trimStart s' else s
  | EmptyString => EmptyString
  end.

(** [trimEnd] drops the trailing white space: a character is kept
    when something is left after it or it is not white space. *)
Fixpoint trimEnd (s : string) : string :=
  match s with
  | EmptyString => EmptyString
  | String a s' =>
      match trimEnd s' with
      | EmptyString => if is_ws a then EmptyString else String a EmptyString
      | t => String a t
      end
  end.

Definition trim (s : string) : string := trimEnd (trimStart s).

(** A string made of white space only (the empty string included). *)
Fixpoint blank (s : string) : bool :=
  match s with
  | EmptyString => true
  | String a s' => is_ws a && blank s'
  end.

Definition lower_ascii (a : ascii) : ascii :=
  let n := nat_of_ascii a in
  if ((65 <=? n) && (n <=? 90))%nat then ascii_of_nat (n + 32) else a.

Fixpoint toLowerCase (s : string) : string :=
  match s with
  | EmptyString => EmptyString
  | String a s' => String (lower_ascii a) (toLowerCase s')
  end.

Fixpoint startsWith (s p : string) : bool :=
  match p, s with
  | EmptyString, _ => true
  | String b p', String a s' => Ascii.eqb a b && startsWith s' p'
  | String _ _, EmptyString => false
  end.

Fixpoint includes (s p : string) : bool :=
  startsWith s p ||
  match s with
  | EmptyString => false
  | String _ s' => includes s' p
  end.

Fixpoint join (sep : string) (l : list string) : string :=
  match l with
  | [] => EmptyString
  | [x] => x
  | x :: l' => x +:+ sep +:+ join sep l'
  end.

(** Decimal digits of a non-negative integer, most significant first;
    [fuel] bounds the number of digits. *)
Fixpoint digits_of (fuel : nat) (z : Z) (acc : string) : string :=
  match fuel with
  | O => acc
  | S fuel' =>
      let acc' := String (ascii_of_nat (48 + Z.to_nat (z mod 10))) acc in
      if (z / 10 =? 0)%Z then acc' else digits_of fuel' (z / 10)%Z acc'
  end.

(** [String(z)] for an integer: it has at most [log2 |z| + 1] digits. *)
Definition of_Z (z : Z) : string :=
  if (z <? 0)%Z
  then String "-" (digits_of (S (Z.to_nat (Z.log2 (- z)))) (- z)%Z EmptyString)
  else digits_of (S (Z.to_nat (Z.log2 z))) z EmptyString.

Definition of_nat (n : nat) : string := of_Z (Z.of_nat n).

(** [a < b] and [a <= b] on strings: code-unit lexicographic order. *)
Definition ltb (a b : string) : bool := String.ltb a b.
Definition leb (a b : string) : bool := negb (String.ltb b a).

End Str.

(** ** The JavaScript runtime the code relies on *)

Class JsRuntime := {
  num : Type;
  num_eqb : num -> num -> bool;        (* [a === b] on numbers *)
  num_ltb : num -> num -> bool;        (* [a < b]  *)
  num_leb : num -> num -> bool;        (* [a <= b] *)
  num_truthy : num -> bool;            (* [Boolean(n)] *)
  num_to_string : num -> string;       (* [String(n)] *)
  parseFloat : string -> option num;   (* [None] when the result is NaN *)
  Date_parse : string -> option num;   (* time value of [new Date(s)];
                                          [None] for an invalid date *)
}.

(** Outcome of a computation that may throw. *)
Inductive result (A : Type) : Type :=
| Ok (a : A)
| Raise (msg : string).
Arguments Ok {A} a.
Arguments Raise {A} msg.

(** [Array.prototype.every] and [Array.prototype.some] with a callback
    that may throw: both stop at the first deciding element. *)
Fixpoint every {A} (f : A -> result bool) (l : list A) : result bool :=
  match l with
  | [] => Ok true
  | x :: l' =>
      match f x with
      | Ok true => every f l'
      | Ok false => Ok false
      | Raise e => Raise e
      end
  end.

Fixpoint some {A} (f : A -> result bool) (l : list A) : result bool :=
  match l with
  | [] => Ok false
  | x :: l' =>
      match f x with
      | Ok true => Ok true
      | Ok false => some f l'
      | Raise e => Raise e
      end
  end.

Section Values.
Context `{RT : JsRuntime}.

(** ** Values *)

Inductive jsval : Type :=
| JUndefined
| JNull
| JBool (b : bool)
| JNum (n : num)
| JStr (s : string)
| JArr (xs : list jsval)
| JObj (props : list (string * jsval)).

(** A plain object: its own properties, in the order they were set.
    (The enumeration order of ECMAScript moves integer-like keys to the
    front; the code embedded here reads records by name only.) *)
Definition RowDict : Type := list (string * jsval).

Fixpoint lookup_prop (k : string) (ps : list (string * jsval)) : jsval :=
  match ps with
  | [] => JUndefined
  | (k', v) :: ps' => if String.eqb k' k then v else lookup_prop k ps'
  end.

(** [obj[k] = v]: an existing key keeps its position. *)
Fixpoint set_prop (k : string) (v : jsval) (ps : list (string * jsval))
  : list (string * jsval) :=
  match ps with
  | [] => [(k, v)]
  | (k', v') :: ps' =>
      if String.eqb k' k then (k', v) :: ps' else (k', v') :: set_prop k v ps'
  end.

(** [v.k] for the property names this code reads ([where], [and],
    [or], [field], [operator], [value], [values]): only a plain object
    can own them.  (An array inherits [values] from its prototype, but
    the only array read that way has no [field] and is rejected before
    [values] is used.) *)
Definition get_prop (v : jsval) (k : string) : jsval :=
  match v with
  | JObj ps => lookup_prop k ps
  | _ => JUndefined
  end.

Definition truthy (v : jsval) : bool :=
  match v with
  | JUndefined | JNull => false
  | JBool b => b
  | JNum n => num_truthy n
  | JStr s => negb (String.eqb s "")
  | JArr _ | JObj _ => true
  end.

(** [typeof v === "object"] *)
Definition typeof_object (v : jsval) : bool :=
  match v with
  | JNull | JArr _ | JObj _ => true
  | _ => false
  end.

Definition isArray (v : jsval) : bool :=
  match v with JArr _ => true | _ => false end.

(** [String(v)], for a value on which the conversion returns: an
    object that owns a [toString] property makes it throw, see
    [printable] below. *)
Fixpoint js_to_string (v : jsval) : string :=
  match v with
  | JUndefined => "undefined"
  | JNull => "null"
  | JBool true => "true"
  | JBool false => "false"
  | JNum n => num_to_string n
  | JStr s => s
  | JArr xs =>
      Str.join ","
        (List.map (fun x => match x with
                            | JUndefined | JNull => ""
                            | _ => js_to_string x
                            end) xs)
  | JObj _ => "[object Object]"
  end.

(** [a || b] and [a ?? b] *)
Definition js_or (a b : jsval) : jsval := if truthy a then a else b.
Definition js_nullish_or (a b : jsval) : jsval :=
  match a with JUndefined | JNull => b | _ => a end.

(** [row[field]]: the key is converted to a string. *)
Definition row_get (row : RowDict) (field : jsval) : jsval :=
  lookup_prop (js_to_string field) row.


(** ** [filters.ts]: coercion and comparison *)

(** The typed values [coercePair] hands to [compare].  [SDate t] is a
    [Date] object with time value [t], freshly built by [toDateTime]. *)
Inductive Scalar : Type :=
| SNull
| SDate (t : num)
| SNum (n : num)
| SBool (b : bool)
| SStr (s : string).

Inductive Kind : Type := KNull | KDatetime | KNumber | KBool | KString.

Definition Kind_eqb (k1 k2 : Kind) : bool :=
  match k1, k2 with
  | KNull, KNull | KDatetime, KDatetime | KNumber, KNumber
  | KBool, KBool | KString, KString => true
  | _, _ => false
  end.

Definition asArray (input : jsval) : list jsval :=
  if negb (truthy input) then []
  else match input with
       | JArr xs => xs
       | _ => [input]
       end.

Definition isNullish (value : jsval) : bool :=
  match value with
  | JNull | JUndefined => true
  | JStr s => String.eqb s ""
  | _ => false
  end.

Definition toBool (value : jsval) : option bool :=
  match value with
  | JBool b => Some b
  | JNum n => Some (num_truthy n)
  | JStr v =>
      let s := Str.toLowerCase (Str.trim v) in
      if existsb (String.eqb s) ["true"; "t"; "yes"; "y"; "1"] then Some true
      else if existsb (String.eqb s) ["false"; "f"; "no"; "n"; "0"]
           then Some false
           else None
  | _ => None
  end.

Definition toNumber (value : jsval) : option num :=
  match value with
  | JNum n => Some n
  | JStr v => parseFloat (Str.trim v)
  | _ => None
  end.

Definition toDateTime (value : jsval) : option num :=
  match value with
  | JStr v => Date_parse v
  | _ => None
  end.

Definition coercePair (lhs rhs : jsval) : Scalar * Scalar * Kind :=
  if isNullish lhs && isNullish rhs then (SNull, SNull, KNull)
  else
    match toDateTime lhs, toDateTime rhs with
    | Some ldt, Some rdt => (SDate ldt, SDate rdt, KDatetime)
    | _, _ =>
        match toNumber lhs, toNumber rhs with
        | Some ln, Some rn => (SNum ln, SNum rn, KNumber)
        | _, _ =>
            match toBool lhs, toBool rhs with
            | Some lb, Some rb => (SBool lb, SBool rb, KBool)
            | _, _ =>
                (SStr (match lhs with JNull => "" | _ => js_to_string lhs end),
                 SStr (match rhs with JNull => "" | _ => js_to_string rhs end),
                 KString)
            end
        end
    end.

(** [a === b] on coerced values.  Two [Date] objects built by two
    [new Date] calls are different objects, hence never identical. *)
Definition strict_eq (a b : Scalar) : bool :=
  match a, b with
  | SNull, SNull => true
  | SNum x, SNum y => num_eqb x y
  | SBool x, SBool y => Bool.eqb x y
  | SStr x, SStr y => String.eqb x y
  | _, _ => false
  end.

Definition is_null (a : Scalar) : bool :=
  match a with SNull => true | _ => false end.

(** [a < b] and [a <= b] on two coerced values of one kind: dates by
    time value, booleans as the numbers 0 and 1, strings by code unit. *)
Definition js_lt (a b : Scalar) : bool :=
  match a, b with
  | SDate x, SDate y => num_ltb x y
  | SNum x, SNum y => num_ltb x y
  | SBool x, SBool y => negb x && y
  | SStr x, SStr y => Str.ltb x y
  | _, _ => false
  end.

Definition js_le (a b : Scalar) : bool :=
  match a, b with
  | SDate x, SDate y => num_leb x y
  | SNum x, SNum y => num_leb x y
  | SBool x, SBool y => negb x || y
  | SStr x, SStr y => Str.leb x y
  | _, _ => false
  end.

Definition js_gt (a b : Scalar) : bool := js_lt b a.
Definition js_ge (a b : Scalar) : bool := js_le b a.

Definition compare (lhs rhs : jsval) (op : string) : bool :=
  let '(a, b, kind) := coercePair lhs rhs in
  let isEqualityOp := String.eqb op "eq" || String.eqb op "ne" in
  if is_null a || is_null b then
    if isEqualityOp
    then (if String.eqb op "eq" then strict_eq a b else negb (strict_eq a b))
    else false
  else if String.eqb op "eq" then strict_eq a b
  else if String.eqb op "ne" then negb (strict_eq a b)
  else if String.eqb op "gt" then negb (Kind_eqb kind KBool) && js_gt a b
  else if String.eqb op "gte" then negb (Kind_eqb kind KBool) && js_ge a b
  else if String.eqb op "lt" then negb (Kind_eqb kind KBool) && js_lt a b
  else if String.eqb op "lte" then negb (Kind_eqb kind KBool) && js_le a b
  else false.

Definition like (cell pattern : jsval) : bool :=
  if isNullish cell || isNullish pattern then false
  else Str.includes (Str.toLowerCase (js_to_string cell))
                    (Str.toLowerCase (js_to_string pattern)).

Definition between (cell low high : jsval) : bool :=
  let '(a1, b1, k1) := coercePair cell low in
  let '(a2, b2, k2) := coercePair cell high in
  if is_null a1 || is_null b1 || is_null a2 || is_null b2
     || negb (Kind_eqb k1 k2)
  then false
  else js_ge a1 b1 && js_le a2 b2.

(** [options.some(...)]: calling [some] on a value that is not an
    array throws a [TypeError]. *)
Definition inList (cell : jsval) (options : jsval) : result bool :=
  match options with
  | JArr opts => some (fun opt => Ok (compare cell opt "eq")) opts
  | _ => Raise "TypeError: options.some is not a function"
  end.

(** ** [filters.ts]: the predicate compiler *)

Definition matchCondition (row : RowDict) (condition : jsval) : result bool :=
  if negb (truthy condition) || negb (typeof_object condition) then Ok false
  else
    let field := get_prop condition "field" in
    let operator := match get_prop condition "operator" with
                    | JUndefined => JStr "eq"
                    | o => o
                    end in
    let value := get_prop condition "value" in
    let values := get_prop condition "values" in
    if negb (truthy field) then Ok false
    else
      let cell := row_get row field in
      let op := Str.toLowerCase (js_to_string operator) in
      if String.eqb op "is_null" then Ok (isNullish cell)
      else if String.eqb op "is_not_null" then Ok (negb (isNullish cell))
      else if String.eqb op "like" then Ok (like cell value)
      else if String.eqb op "between" then
        match js_or values value with
        | JArr (lo :: hi :: _) => Ok (between cell lo hi)
        | _ => Ok false
        end
      else if String.eqb op "in" || String.eqb op "not_in" then
        let opts := js_or values (if isArray value then value
                                  else JArr [value]) in
        match inList cell opts with
        | Ok inResult =>
            Ok (if String.eqb op "in" then inResult else negb inResult)
        | Raise e => Raise e
        end
      else Ok (compare cell value op).

Definition nonempty {A} (l : list A) : bool :=
  match l with [] => false | _ => true end.

Definition buildPredicate (payload : jsval) : RowDict -> result bool :=
  let where_ := js_or (get_prop payload "where") payload in
  if negb (truthy where_) || negb (typeof_object where_)
  then fun _ => Ok true
  else
    let andConds := asArray (get_prop where_ "and") in
    let orConds := asArray (get_prop where_ "or") in
    fun row =>
      match (if nonempty andConds
             then every (matchCondition row) andConds else Ok true) with
      | Raise e => Raise e
      | Ok andOk =>
          match (if nonempty orConds
                 then some (matchCondition row) orConds
                 else Ok true) with
          | Raise e => Raise e
          | Ok orOk =>
              if nonempty andConds && nonempty orConds
              then Ok (andOk || orOk)
              else Ok (if nonempty andConds then andOk else orOk)
          end
      end.



(** ** [service.ts]: the read cache *)

(** What [fetchSheetValues] resolves to: a grid of cells. *)
Definition Grid : Type := list (list jsval).

Record CacheEntry : Type := { timestamp : Z; data : Grid }.

(** The two configuration constants of the service. *)
Record Config : Type := { CACHE_TTL : Z; CACHE_MAX_ENTRIES : Z }.

(** A JavaScript [Map] iterates in insertion order: an association
    list without repeated keys, oldest binding first. *)
Definition Cache : Type := list (string * CacheEntry).

Fixpoint cache_get (k : string) (c : Cache) : option CacheEntry :=
  match c with
  | [] => None
  | (k', e) :: c' => if String.eqb k' k then Some e else cache_get k c'
  end.

Fixpoint cache_delete (k : string) (c : Cache) : Cache :=
  match c with
  | [] => []
  | (k', e) :: c' =>
      if String.eqb k' k then cache_delete k c' else (k', e) :: cache_delete k c'
  end.

(** [Map.prototype.set]: a present key keeps its place, a new one goes
    last. *)
Fixpoint cache_set (k : string) (e : CacheEntry) (c : Cache) : Cache :=
  match c with
  | [] => [(k, e)]
  | (k', e') :: c' =>
      if String.eqb k' k then (k', e) :: c' else (k', e') :: cache_set k e c'
  end.

Definition expired (cfg : Config) (now : Z) (e : CacheEntry) : bool :=
  (now - timestamp e >? CACHE_TTL cfg)%Z.

(** The [while] loop of [pruneCache]: drop the oldest key while the
    size exceeds the bound; an empty oldest key stops the loop. *)
Fixpoint evict_oldest (cfg : Config) (c : Cache) : Cache :=
  match c with
  | [] => []
  | (k, e) :: c' =>
      if (Z.of_nat (length c) >? CACHE_MAX_ENTRIES cfg)%Z
      then if String.eqb k "" then c else evict_oldest cfg c'
      else c
  end.

Definition pruneCache (cfg : Config) (now : Z) (c : Cache) : Cache :=
  evict_oldest cfg
    (List.filter (fun ke => negb (expired cfg now (snd ke))) c).

(** The promise [fetchPromise] of one [readValues] call, with what its
    [then] and [finally] callbacks captured. *)
Record FetchClosure : Type :=
  { fc_key : string; fc_now : Z; fc_useCache : bool }.

Inductive Phase : Type :=
| Fetching                          (* the backend call is pending *)
| Settled (r : result Grid)         (* [then] callback done, [finally] queued *)
| Finalized (r : result Grid).      (* [finally] callback done *)

Record Service : Type := {
  readCache : Cache;
  inflightReads : gmap string nat;
  promises : gmap nat (FetchClosure * Phase);
  nextPromise : nat;
  fetchCalls : list (string * string)  (* calls of [fetchSheetValues] *)
}.

Definition initial : Service :=
  {| readCache := []; inflightReads := ∅; promises := ∅;
     nextPromise := 0; fetchCalls := [] |}.

(** What the caller of [readValues] gets: a rejection, a value, or the
    promise [fetchPromise] of some call. *)
Inductive Outcome : Type :=
| Thrown (msg : string)
| Returned (rows : Grid)
| Awaiting (p : nat).

Definition set_readCache (c : Cache) (st : Service) : Service :=
  {| readCache := c; inflightReads := inflightReads st;
     promises := promises st; nextPromise := nextPromise st;
     fetchCalls := fetchCalls st |}.

(** The part of [readValues] from [if (!useCache)] on. *)
Definition fetch_or_join (st : Service) (spreadsheetId trimmedRange cacheKey : string)
    (useCache : bool) (now : Z) : Outcome * Service :=
  let st1 := if useCache then st
             else set_readCache (cache_delete cacheKey (readCache st)) st in
  match (if useCache then inflightReads st1 !! cacheKey else None) with
  | Some pending => (Awaiting pending, st1)
  | None =>
      let p := nextPromise st1 in
      (Awaiting p,
       {| readCache := readCache st1;
          inflightReads := if useCache
                           then <[cacheKey := p]> (inflightReads st1)
                           else inflightReads st1;
          promises := <[p := ({| fc_key := cacheKey; fc_now := now;
                                 fc_useCache := useCache |}, Fetching)]>
                        (promises st1);
          nextPromise := S p;
          fetchCalls := fetchCalls st1 ++ [(spreadsheetId, trimmedRange)] |})
  end.

(** [readValues], up to its first suspension.  [range] is [None] for
    [undefined] or [null]; [now] is what [Date.now()] returns. *)
Definition readValues (cfg : Config) (st : Service) (spreadsheetId : string)
    (range : option string) (useCache : bool) (now : Z) : Outcome * Service :=
  match Str.trim <$> range with
  | None | Some EmptyString => (Thrown "Range must be a non-empty string", st)
  | Some trimmedRange =>
      let cacheKey := spreadsheetId +:+ ":" +:+ trimmedRange in
      match (if useCache then cache_get cacheKey (readCache st) else None) with
      | Some entry =>
          if (now - timestamp entry <=? CACHE_TTL cfg)%Z
          then (Returned (data entry),
                set_readCache
                  (cache_set cacheKey entry
                     (cache_delete cacheKey (readCache st))) st)
          else fetch_or_join
                 (set_readCache (cache_delete cacheKey (readCache st)) st)
                 spreadsheetId trimmedRange cacheKey useCache now
      | None =>
          fetch_or_join st spreadsheetId trimmedRange cacheKey useCache now
      end
  end.

(** The backend call of promise [p] settles with [r]: the [then]
    callback runs (on success only). *)
Definition resolve (cfg : Config) (st : Service) (p : nat) (r : result Grid)
  : Service :=
  match promises st !! p with
  | Some (fc, Fetching) =>
      {| readCache :=
           match r with
           | Ok values =>
               if fc_useCache fc
               then cache_set (fc_key fc)
                      {| timestamp := fc_now fc; data := values |}
                      (pruneCache cfg (fc_now fc) (readCache st))
               else readCache st
           | Raise _ => readCache st
           end;
         inflightReads := inflightReads st;
         promises := <[p := (fc, Settled r)]> (promises st);
         nextPromise := nextPromise st;
         fetchCalls := fetchCalls st |}
  | _ => st
  end.

(** The [finally] callback of promise [p] runs (it was registered only
    when [useCache] held). *)
Definition finalize (st : Service) (p : nat) : Service :=
  match promises st !! p with
  | Some (fc, Settled r) =>
      {| readCache := readCache st;
         inflightReads := if fc_useCache fc
                          then delete (fc_key fc) (inflightReads st)
                          else inflightReads st;
         promises := <[p := (fc, Finalized r)]> (promises st);
         nextPromise := nextPromise st;
         fetchCalls := fetchCalls st |}
  | _ => st
  end.

(** What a caller awaiting promise [p] receives, once it is settled. *)
Definition promise_result (st : Service) (p : nat) : option (result Grid) :=
  match promises st !! p with
  | Some (_, Settled r) | Some (_, Finalized r) => Some r
  | _ => None
  end.

(** The cooperative scheduler: callers enter [readValues], backend
    calls settle, queued callbacks run, in any order. *)
Inductive Event : Type :=
| EvCall (spreadsheetId : string) (range : option string)
         (useCache : bool) (now : Z)
| EvResolve (p : nat) (r : result Grid)
| EvFinalize (p : nat).

Definition step (cfg : Config) (st : Service) (ev : Event) : Service :=
  match ev with
  | EvCall sid range useCache now =>
      snd (readValues cfg st sid range useCache now)
  | EvResolve p r => resolve cfg st p r
  | EvFinalize p => finalize st p
  end.

Definition run (cfg : Config) (st : Service) (evs : list Event) : Service :=
  fold_left (step cfg) evs st.

Definition reachable (cfg : Config) (st : Service) : Prop :=
  exists evs, st = run cfg initial evs.

(** ** [service.ts]: row normalisation and the dedup post-filter *)

Definition nat_to_string (n : nat) : string := Str.of_nat n.

(** One iteration of the inner loop of [normalizeRows], from column [i]. *)
Fixpoint normalize_from (i : nat) (headers row : list jsval)
    (normalized : RowDict) : RowDict :=
  match headers with
  | [] => normalized
  | h :: headers' =>
      let key := js_nullish_or h (JStr ("col_" +:+ nat_to_string i)) in
      let cell := match row with
                  | c :: _ => c
                  | [] => JStr ""
                  end in
      normalize_from (S i) headers' (tl row)
        (set_prop (js_to_string key) cell normalized)
  end.

Definition normalizeRows (headers : list jsval) (rawRows : Grid)
  : list RowDict :=
  if negb (nonempty rawRows) || (length headers =? 0)%nat then []
  else List.map (fun row => normalize_from 0 headers row []) rawRows.

Definition compoundKey (keys : list jsval) (row : RowDict) : string :=
  Str.join "|"
    (List.map (fun k => js_to_string (js_nullish_or (row_get row k) (JStr "")))
              keys).

(** The loop of [applyUnique], threading the set [seen]. *)
Fixpoint unique_loop (keys : list jsval) (seen : gset string)
    (rows : list RowDict) : list RowDict :=
  match rows with
  | [] => []
  | row :: rows' =>
      let ck := compoundKey keys row in
      if decide (ck ∈ seen) then unique_loop keys seen rows'
      else row :: unique_loop keys ({[ck]} ∪ seen) rows'
  end.

Definition applyUnique (rows : list RowDict) (uniqueBy : jsval)
  : list RowDict :=
  if negb (truthy uniqueBy) then rows
  else
    let keys := match uniqueBy with JArr ks => ks | _ => [uniqueBy] end in
    unique_loop keys ∅ rows.

(** ** [service.ts]: the write coordinator *)

Fixpoint colIdxToA1_loop (fuel : nat) (n : Z) (acc : string) : string :=
  match fuel with
  | O => acc
  | S fuel' =>
      if (n >? 0)%Z
      then let n' := (n - 1)%Z in
           colIdxToA1_loop fuel' (n' / 26)%Z
             (String (ascii_of_nat (65 + Z.to_nat (n' mod 26))) acc)
      else acc
  end.

(** The loop runs at most [n + 1] times: [n] strictly decreases. *)
Definition colIdxToA1 (n : Z) : string :=
  colIdxToA1_loop (Z.to_nat (n + 1)) (n + 1)%Z "".

Record BatchRequest : Type :=
  { br_range : string; br_values : list (list jsval) }.

Record UpdateResult : Type := { updated : nat; appended : nat }.

(** [headers.indexOf(key)]: strict equality with a string. *)
Fixpoint indexOf (headers : list jsval) (key : string) : option nat :=
  match headers with
  | [] => None
  | h :: headers' =>
      match h with
      | JStr s => if String.eqb s key then Some 0%nat
                  else S <$> indexOf headers' key
      | _ => S <$> indexOf headers' key
      end
  end.

(** The loop over [Object.entries(data)], threading [updatedRow] and
    [hasChanges]. *)
Fixpoint apply_patch (headers : list jsval) (entries : list (string * jsval))
    (updatedRow : list jsval) (hasChanges : bool) : list jsval * bool :=
  match entries with
  | [] => (updatedRow, hasChanges)
  | (key, value) :: entries' =>
      match indexOf headers key with
      | Some headerIndex =>
          if negb (String.eqb
                     (js_to_string (nth headerIndex updatedRow JUndefined))
                     (js_to_string value))
          then apply_patch headers entries'
                 (<[headerIndex := value]> updatedRow) true
          else apply_patch headers entries' updatedRow hasChanges
      | None => apply_patch headers entries' updatedRow hasChanges
      end
  end.

Definition existing_cells (headers : list jsval) (existingRow : RowDict)
  : list jsval :=
  List.map (fun h => match row_get existingRow h with
                     | JUndefined | JNull => JStr ""
                     | v => v
                     end) headers.

Definition row_range (sheetName : string) (headers : list jsval)
    (rowIndex : nat) : string :=
  let sheetRowNum := nat_to_string (rowIndex + 2) in
  let endCol := colIdxToA1 (Z.of_nat (length headers) - 1) in
  sheetName +:+ "!A" +:+ sheetRowNum +:+ ":" +:+ endCol +:+ sheetRowNum.

(** The body of the loop over [targetIndices] for one row index. *)
Definition update_one (sheetName : string) (headers : list jsval)
    (rows : list RowDict) (data : RowDict) (rowIndex : nat)
  : option BatchRequest :=
  match rows !! rowIndex with
  | None => None
  | Some existingRow =>
      let '(updatedRow, hasChanges) :=
        apply_patch headers data (existing_cells headers existingRow) false in
      if hasChanges
      then Some {| br_range := row_range sheetName headers rowIndex;
                   br_values := [updatedRow] |}
      else None
  end.

(** [rows.map(...).filter(({row}) => predicate(row)).map(...)] *)
Fixpoint matching_from (i : nat) (predicate : RowDict -> result bool)
    (rows : list RowDict) : result (list nat) :=
  match rows with
  | [] => Ok []
  | row :: rows' =>
      match predicate row with
      | Raise e => Raise e
      | Ok b =>
          match matching_from (S i) predicate rows' with
          | Raise e => Raise e
          | Ok rest => Ok (if b then i :: rest else rest)
          end
      end
  end.

(** [updateRows] on the grid [values] the forced fresh read resolved
    to.  The result carries the argument of [batchUpdate] ([None] when
    the call is not made) and the returned record; the backend calls
    themselves are assumed to succeed. *)
Definition updateRows (values : Grid) (sheetName : string) (where_ : jsval)
    (data : RowDict) (updateAll : bool)
  : result (option (list BatchRequest) * UpdateResult) :=
  match values with
  | [] => Raise "Sheet appears empty or unreadable"
  | headers :: body =>
      let rows := normalizeRows headers body in
      let predicate := if truthy where_ then buildPredicate where_
                       else fun _ => Ok true in
      match matching_from 0 predicate rows with
      | Raise e => Raise e
      | Ok matchingIndices =>
          if nonempty matchingIndices then
            let targetIndices := if updateAll then matchingIndices
                                 else take 1 matchingIndices in
            let batchRequests :=
              omap (update_one sheetName headers rows data) targetIndices in
            if nonempty batchRequests
            then Ok (Some batchRequests,
                     {| updated := length batchRequests; appended := 0 |})
            else Ok (None, {| updated := 0; appended := 0 |})
          else Ok (None, {| updated := 0; appended := 0 |})
      end
  end.

(** ** Vocabulary of the specification *)

(** A range that is [undefined], empty or made of white space only. *)
Definition blank_range (range : option string) : Prop :=
  match range with
  | None => True
  | Some s => Str.blank s = true
  end.

(** The where-tree [buildPredicate] works on: [payload?.where || payload]. *)
Definition where_of (payload : jsval) : jsval :=
  js_or (get_prop payload "where") payload.

(** A condition whose [values], when given, is an array, as the type
    [Condition] declares it. *)
Definition well_shaped (cond : jsval) : bool :=
  let values := get_prop cond "values" in
  negb (truthy values) || isArray values.

(** The row satisfies the condition. *)
Definition matches (row : RowDict) (cond : jsval) : bool :=
  match matchCondition row cond with
  | Ok b => b
  | Raise _ => false
  end.

(** The combination rule of the data model, in the specification's
    words: both groups present, one group present, none. *)
Definition combination_rule (m : jsval -> bool)
    (andGroup orGroup : list jsval) : bool :=
  match andGroup, orGroup with
  | [], [] => true
  | _ :: _, [] => forallb m andGroup
  | [], _ :: _ => existsb m orGroup
  | _ :: _, _ :: _ => forallb m andGroup || existsb m orGroup
  end.

(** The text a value contributes to a string comparison. *)
Definition operand_text (v : jsval) : string :=
  match v with JNull => "" | _ => js_to_string v end.

(** ** Invariant of the cache manager *)

(** A promise whose [finally] callback has not run yet. *)
Definition live (ph : Phase) : bool :=
  match ph with Finalized _ => false | _ => true end.

Record Inv (st : Service) : Prop := {
  (* a registered key names a live cached fetch of that key *)
  inv_inflight : forall k p,
    inflightReads st !! k = Some p ->
    exists fc ph, promises st !! p = Some (fc, ph) /\ fc_key fc = k /\
                  fc_useCache fc = true /\ live ph = true;
  (* every live cached fetch is the one registered for its key *)
  inv_registered : forall p fc ph,
    promises st !! p = Some (fc, ph) -> fc_useCache fc = true ->
    live ph = true -> inflightReads st !! fc_key fc = Some p;
  (* promise identifiers are allocated in order *)
  inv_fresh : forall p x, promises st !! p = Some x -> p < nextPromise st;
  (* while a cached fetch is pending its key has no cache entry *)
  inv_nocache : forall p fc,
    promises st !! p = Some (fc, Fetching) -> fc_useCache fc = true ->
    cache_get (fc_key fc) (readCache st) = None
}.

(** ** Vocabulary of the write coordinator *)






(** Some patch entry names a column whose text differs from the
    text of the patch value. *)
Definition patch_changes (headers : list jsval) (data : RowDict)
    (old : list jsval) : bool :=
  existsb (fun kv =>
             match indexOf headers (fst kv) with
             | Some j => negb (String.eqb
                                 (js_to_string (nth j old JUndefined))
                                 (js_to_string (snd kv)))
             | None => false
             end) data.





End Values.

Arguments JNum {RT} & n.

(** ** A small executable runtime for the examples

    Numbers are restricted to the integers; [parseFloat] reads an
    optionally signed decimal integer prefix (no fraction, exponent or
    [Infinity]); the date parser accepts the ISO form [YYYY-MM-DD] only
    (days up to 28) and yields milliseconds since the epoch.  The
    parser of a real engine accepts more (other days, month names, and
    in some engines bare numerals such as [5] or [2020]).  The examples
    below give the date parser only strings on which both agree: ISO
    dates and strings no engine reads as a date; numeric operands are
    written as numbers, which [toDateTime] rejects in every engine. *)

Module Ref.

Definition digit (a : ascii) : option Z :=
  let n := nat_of_ascii a in
  if ((48 <=? n) && (n <=? 57))%nat then Some (Z.of_nat (n - 48)) else None.

(** Value of the longest digit prefix, [acc] holding the digits read. *)
Fixpoint digits (s : string) (acc : option Z) : option Z :=
  match s with
  | EmptyString => acc
  | String a s' =>
      match digit a with
      | Some d => digits s' (Some (default 0 acc * 10 + d))%Z
      | None => acc
      end
  end.

Definition parse_int (s : string) : option Z :=
  match s with
  | String "-" s' => Z.opp <$> digits s' None
  | String "+" s' => digits s' None
  | _ => digits s None
  end.

Definition days_from_civil (y m d : Z) : Z :=
  let y' := if (m <=? 2)%Z then (y - 1)%Z else y in
  let era := (y' / 400)%Z in
  let yoe := (y' - era * 400)%Z in
  let mp := if (m >? 2)%Z then (m - 3)%Z else (m + 9)%Z in
  let doy := ((153 * mp + 2) / 5 + d - 1)%Z in
  let doe := (yoe * 365 + yoe / 4 - yoe / 100 + doy)%Z in
  (era * 146097 + doe - 719468)%Z.

Definition num2 (a b : ascii) : option Z :=
  match digit a, digit b with
  | Some x, Some y => Some (x * 10 + y)%Z
  | _, _ => None
  end.

Definition parse_iso_date (s : string) : option Z :=
  match s with
  | String y1 (String y2 (String y3 (String y4 (String "-"
      (String m1 (String m2 (String "-"
        (String d1 (String d2 EmptyString))))))))) =>
      match num2 y1 y2, num2 y3 y4, num2 m1 m2, num2 d1 d2 with
      | Some yh, Some yl, Some m, Some d =>
          if ((1 <=? m) && (m <=? 12) && (1 <=? d) && (d <=? 28))%Z
          then Some (days_from_civil (yh * 100 + yl) m d * 86400000)%Z
          else None
      | _, _, _, _ => None
      end
  | _ => None
  end.

#[export] Instance runtime : JsRuntime :=
  {| num := Z;
     num_eqb := Z.eqb;
     num_ltb := Z.ltb;
     num_leb := Z.leb;
     num_truthy := fun z => negb (z =? 0)%Z;
     num_to_string := Str.of_Z;
     parseFloat := parse_int;
     Date_parse := parse_iso_date |}.

End Ref.

(** ** Data of the examples *)

Module Ex.
Import Ref.

Definition cfg : Config := {| CACHE_TTL := 10000; CACHE_MAX_ENTRIES := 2 |}.

Definition cond (field operator : string) (value : jsval) : jsval :=
  JObj [("field", JStr field); ("operator", JStr operator); ("value", value)].

(** A bare condition used as the whole where-tree. *)
Definition bare : jsval := cond "name" "eq" (JStr "x").

(** [in] with a string where the array [values] is expected. *)
Definition in_string : jsval :=
  JObj [("field", JStr "a"); ("operator", JStr "in"); ("values", JStr "x")].

(** The where-tree of the specification's example. *)
Definition adult_or_vip : jsval :=
  JObj [("and", JArr [cond "age" "gte" (JNum 18%Z)]);
        ("or", JArr [cond "vip" "eq" (JBool true)])].

(** The [and] group of that example alone, and with an [or] group whose
    [in] condition carries a string for [values]. *)
Definition adults_only : jsval :=
  JObj [("and", JArr [cond "age" "gte" (JNum 18%Z)])].
Definition adult_or_listed : jsval :=
  JObj [("and", JArr [cond "age" "gte" (JNum 18%Z)]);
        ("or", JArr [in_string])].
Definition adult : RowDict := [("age", JNum 30%Z); ("a", JStr "x")].

Definition minor_vip : RowDict := [("age", JNum 16%Z); ("vip", JBool true)].
Definition minor : RowDict := [("age", JNum 16%Z); ("vip", JBool false)].

(** A sheet with three rows of the same [id]. *)
Definition sheet : Grid :=
  [[JStr "id"; JStr "name"];
   [JNum 1%Z; JStr "a"];
   [JNum 1%Z; JStr "b"];
   [JNum 1%Z]].



Definition fetched : Grid := [[JStr "h"]].

(** Three cached reads of three ranges, each fetch succeeding before
    the next call. *)
Definition three_reads : list Event :=
  [EvCall "s" (Some "A") true 0; EvResolve 0 (Ok fetched); EvFinalize 0;
   EvCall "s" (Some "B") true 1; EvResolve 1 (Ok fetched); EvFinalize 1;
   EvCall "s" (Some "C") true 2; EvResolve 2 (Ok fetched); EvFinalize 2].

End Ex.

(** ** Data of the further examples *)

Module Ex2.
Import Ref Ex.

Definition entry (t : Z) : CacheEntry := {| timestamp := t; data := fetched |}.

(** A service whose cache holds one entry, stored at time 0. *)
Definition cached : Service := set_readCache [("s:A", entry 0)] initial.

(** The service after one cached call, its fetch pending. *)
Definition pending : Service :=
  snd (readValues cfg initial "s" (Some "A") true 0).

Definition pending_closure : FetchClosure :=
  {| fc_key := "s:A"; fc_now := 0; fc_useCache := true |}.

(** The service after a second cached call, for another range. *)
Definition two_pending : Service :=
  snd (readValues cfg pending "s" (Some "B") true 1).

Definition second_closure : FetchClosure :=
  {| fc_key := "s:B"; fc_now := 1; fc_useCache := true |}.

Definition field_a (rest : list (string * jsval)) : list (string * jsval) :=
  ("field", JStr "a") :: rest.

Definition row_a (v : jsval) : RowDict := [("a", v)].

Definition one_two : list jsval := [JNum 1%Z; JNum 2%Z].



(** The rows of the specification's dedup example. *)
Definition people : list RowDict :=
  [[("id", JNum 1%Z); ("name", JStr "a")];
   [("id", JNum 1%Z); ("name", JStr "b")];
   [("id", JNum 2%Z); ("name", JStr "c")]].

End Ex2.

(** ** Further vocabulary *)

Section Further.
Context `{RT : JsRuntime}.

(** The cache holds at most one entry more than the bound, its keys
    and the keys of all fetches are cache keys. *)
Record Bounded (cfg : Config) (st : Service) : Prop := {
  bnd_keys : Forall (fun ke => ke.1 <> "") (readCache st);
  bnd_promises : forall p fc ph,
    promises st !! p = Some (fc, ph) -> fc_key fc <> "";
  bnd_size : length (readCache st) <= S (Z.to_nat (CACHE_MAX_ENTRIES cfg))
}.


(** The column number a column name stands for: bijective base 26 with
    the digits [A] = 1 to [Z] = 26. *)
Fixpoint a1_value (s : string) : Z :=
  match s with
  | EmptyString => 0
  | String a s' =>
      (Z.of_nat (nat_of_ascii a) - 64) * 26 ^ Z.of_nat (String.length s')
      + a1_value s'
  end.

Fixpoint upper_letters (s : string) : bool :=
  match s with
  | EmptyString => true
  | String a s' =>
      ((65 <=? nat_of_ascii a) && (nat_of_ascii a <=? 90))%nat
      && upper_letters s'
  end.

(** The key list [applyUnique] derives from [uniqueBy]. *)
Definition unique_keys (uniqueBy : jsval) : list jsval :=
  match uniqueBy with JArr ks => ks | _ => [uniqueBy] end.

(** ** The request checks of the controllers *)

(** [Object.keys(v)]: the own enumerable string keys; those of a string
    are its indices, a number or a boolean has none. *)
Definition object_keys (v : jsval) : list string :=
  match v with
  | JObj ps => ps.*1
  | JArr xs => Str.of_nat <$> seq 0 (length xs)
  | JStr s => Str.of_nat <$> seq 0 (String.length s)
  | _ => []
  end.

Definition validateData (input : jsval) : result jsval :=
  if negb (truthy input) then Raise "'data' is required"
  else if isArray input then Raise "'data' must be a non-empty object"
  else if (length (object_keys input) =? 0)%nat
       then Raise "'data' must have at least one key-value pair"
       else Ok input.

(** ** Values that have a string form *)

(** [String(v)] returns for [v].  Converting a plain object that owns a
    [toString] property throws a TypeError (in a JSON body that property
    is never a function, and [Object.prototype.valueOf] returns the
    object itself), and so does converting an array that holds such an
    object.  On the values below, [js_to_string] is what [String(v)]
    returns, and [row[v]] reads the property of that name. *)
Fixpoint printable (v : jsval) : bool :=
  match v with
  | JObj ps => negb (existsb (fun kv => String.eqb (fst kv) "toString") ps)
  | JArr xs => forallb printable xs
  | _ => true
  end.

(** The parts of a condition that [matchCondition] converts to strings
    (the field as a property key, the operator, the operands) have a
    string form, and so have the cells of a row. *)
Definition printable_condition (cond : jsval) : bool :=
  printable (get_prop cond "field") && printable (get_prop cond "operator")
  && printable (get_prop cond "value") && printable (get_prop cond "values").

Definition printable_row (row : RowDict) : bool :=
  forallb (fun kv => printable (snd kv)) row.


(** ** The sheet a write addresses *)








End Further.

(** * Properties *)

Section PredicateProps.
Context `{RT : JsRuntime}.

(** ** Where-trees without groups *)

(** A where-tree object that has neither [where], [and] nor [or]
    compiles to the always-true predicate, whatever else it holds. *)
Lemma buildPredicate_no_groups (ps : list (string * jsval)) (row : RowDict) :
  lookup_prop "where" ps = JUndefined ->
  lookup_prop "and" ps = JUndefined ->
  lookup_prop "or" ps = JUndefined ->
  buildPredicate (JObj ps) row = Ok true.
Proof.
  intros Hw Ha Ho. unfold buildPredicate, js_or; simpl.
  rewrite Hw; simpl. by rewrite Ha, Ho.
Qed.

(** The [in] operator with a [values] payload that is a string: the
    condition raises for every row. *)
Lemma matchCondition_in_string_values (row : RowDict) (f v : string) :
  f <> "" -> v <> "" ->
  matchCondition row
    (JObj [("field", JStr f); ("operator", JStr "in"); ("values", JStr v)])
  = Raise "TypeError: options.some is not a function".
Proof.
  intros Hf Hv. unfold matchCondition; simpl.
  apply String.eqb_neq in Hf, Hv. rewrite Hf; simpl.
  unfold js_or; simpl. by rewrite Hv.
Qed.

(** The shapes of a malformed condition that do evaluate to [false]. *)
Lemma matchCondition_missing_field (row : RowDict) (cond : jsval) :
  truthy (get_prop cond "field") = false ->
  matchCondition row cond = Ok false.
Proof.
  intros Hf. unfold matchCondition.
  destruct (negb (truthy cond) || negb (typeof_object cond)); [done|].
  by rewrite Hf.
Qed.

(** ** The combination rule *)

Lemma some_total {A} (g : A -> bool) (l : list A) :
  some (fun x => Ok (g x)) l = Ok (existsb g l).
Proof.
  induction l as [|x l IH]; simpl; [done|].
  destruct (g x); simpl; [done|apply IH].
Qed.

Lemma every_matches {A} (f : A -> result bool) (g : A -> bool) (l : list A) :
  Forall (fun x => f x = Ok (g x)) l -> every f l = Ok (forallb g l).
Proof.
  induction 1 as [|x l Hx _ IH]; simpl; [done|].
  rewrite Hx. destruct (g x); simpl; [apply IH|done].
Qed.

Lemma some_matches {A} (f : A -> result bool) (g : A -> bool) (l : list A) :
  Forall (fun x => f x = Ok (g x)) l -> some f l = Ok (existsb g l).
Proof.
  induction 1 as [|x l Hx _ IH]; simpl; [done|].
  rewrite Hx. destruct (g x); simpl; [done|apply IH].
Qed.

(** A condition of the declared shape never raises. *)
Lemma matchCondition_total (row : RowDict) (cond : jsval) :
  well_shaped cond = true ->
  matchCondition row cond = Ok (matches row cond).
Proof.
  unfold well_shaped, matches, matchCondition. intros Hshape.
  destruct (negb (truthy cond) || negb (typeof_object cond)); [done|].
  destruct (negb (truthy (get_prop cond "field"))); [done|].
  repeat match goal with
         | |- context [if String.eqb ?a ?b then _ else _] =>
             destruct (String.eqb a b); simpl; try reflexivity
         end.
  - destruct (js_or _ _) as [| | | | |[|? [|? ?]]|]; reflexivity.
  - unfold js_or, inList.
    destruct (truthy (get_prop cond "values")) eqn:Hv; simpl in Hshape.
    + destruct (get_prop cond "values"); try discriminate.
      by rewrite some_total.
    + destruct (get_prop cond "value"); cbn [isArray]; by rewrite some_total.
  - unfold js_or, inList.
    destruct (truthy (get_prop cond "values")) eqn:Hv; simpl in Hshape.
    + destruct (get_prop cond "values"); try discriminate.
      by rewrite some_total.
    + destruct (get_prop cond "value"); cbn [isArray]; by rewrite some_total.
Qed.

(** When no condition raises (its [values], when given, is an array,
    and what it converts to strings has a string form), the predicate
    follows the combination rule: with a non-empty [and] group and a
    non-empty [or] group it is (every and-condition matches) OR (some
    or-condition matches); with one non-empty group that group alone
    decides; with both groups empty or absent, and for a where-tree
    that is not an object, it is true. *)
Lemma buildPredicate_combination (payload : jsval) (row : RowDict) :
  let andGroup := asArray (get_prop (where_of payload) "and") in
  let orGroup := asArray (get_prop (where_of payload) "or") in
  printable_row row = true ->
  Forall (fun cond => printable_condition cond = true)
         (andGroup ++ orGroup) ->
  Forall (fun cond => well_shaped cond = true) (andGroup ++ orGroup) ->
  buildPredicate payload row
  = Ok (if truthy (where_of payload) && typeof_object (where_of payload)
        then combination_rule (matches row) andGroup orGroup
        else true).
Proof.
  intros andGroup orGroup _ _ [Hand Hor]%Forall_app.
  unfold buildPredicate. fold (where_of payload).
  destruct (truthy (where_of payload)); simpl; [|done].
  destruct (typeof_object (where_of payload)); simpl; [|done].
  fold andGroup orGroup.
  assert (Ha : every (matchCondition row) andGroup
               = Ok (forallb (matches row) andGroup)).
  { apply every_matches. eapply Forall_impl; [exact Hand|].
    intros c Hc. by apply matchCondition_total. }
  assert (Ho : some (matchCondition row) orGroup
               = Ok (existsb (matches row) orGroup)).
  { apply some_matches. eapply Forall_impl; [exact Hor|].
    intros c Hc. by apply matchCondition_total. }
  rewrite Ha, Ho.
  destruct andGroup, orGroup; reflexivity.
Qed.

(** ** Coercion and the ordering operators *)

Lemma nullish_not_number (v : jsval) :
  parseFloat "" = None -> isNullish v = true -> toNumber v = None.
Proof.
  intros Hpf. destruct v as [| | | |s| |]; simpl; try done.
  intros ->%String.eqb_eq. exact Hpf.
Qed.

Lemma coercePair_number (a b : jsval) (x y : num) :
  isNullish a && isNullish b = false ->
  toDateTime a = None \/ toDateTime b = None ->
  toNumber a = Some x -> toNumber b = Some y ->
  coercePair a b = (SNum x, SNum y, KNumber).
Proof.
  intros Hn Hd Ha Hb. unfold coercePair. rewrite Hn, Ha, Hb.
  destruct Hd as [-> | ->]; [done|].
  by destruct (toDateTime a).
Qed.

Lemma coercePair_string (a b : jsval) :
  isNullish a && isNullish b = false ->
  toDateTime a = None \/ toDateTime b = None ->
  toNumber a = None \/ toNumber b = None ->
  toBool a = None \/ toBool b = None ->
  coercePair a b = (SStr (operand_text a), SStr (operand_text b), KString).
Proof.
  intros Hn Hd Hnum Hbool. unfold coercePair. rewrite Hn.
  assert (match toDateTime a, toDateTime b with
          | Some _, Some _ => False | _, _ => True end) as Hd'.
  { destruct Hd as [-> | ->]; [done|]. by destruct (toDateTime a). }
  assert (match toNumber a, toNumber b with
          | Some _, Some _ => False | _, _ => True end) as Hnum'.
  { destruct Hnum as [-> | ->]; [done|]. by destruct (toNumber a). }
  assert (match toBool a, toBool b with
          | Some _, Some _ => False | _, _ => True end) as Hbool'.
  { destruct Hbool as [-> | ->]; [done|]. by destruct (toBool a). }
  destruct (toDateTime a), (toDateTime b), (toNumber a), (toNumber b),
    (toBool a), (toBool b); done.
Qed.

(** The kind [coercePair] gives a pair, read off the precedence list. *)
Lemma coercePair_kind_number (a b : jsval) :
  snd (coercePair a b) = KNumber ->
  isNullish a && isNullish b = false /\
  (toDateTime a = None \/ toDateTime b = None) /\
  exists x y, toNumber a = Some x /\ toNumber b = Some y.
Proof.
  unfold coercePair.
  destruct (isNullish a && isNullish b); [discriminate|].
  destruct (toDateTime a), (toDateTime b), (toNumber a), (toNumber b),
    (toBool a), (toBool b); simpl; try discriminate; intros _;
    (split_and!; [done | by auto | by eexists _, _]).
Qed.

Lemma coercePair_kind_string (a b : jsval) :
  snd (coercePair a b) = KString ->
  isNullish a && isNullish b = false /\
  (toDateTime a = None \/ toDateTime b = None) /\
  (toNumber a = None \/ toNumber b = None) /\
  (toBool a = None \/ toBool b = None).
Proof.
  unfold coercePair.
  destruct (isNullish a && isNullish b); [discriminate|].
  destruct (toDateTime a), (toDateTime b), (toNumber a), (toNumber b),
    (toBool a), (toBool b); simpl; try discriminate; intros _;
    (split_and!; by auto).
Qed.

(** C3. A pair coerces to numbers when [coercePair] gives it the kind
    [number], third in the precedence list: both operands convert to a
    number and they do not both parse as datetimes.  For every such
    pair [compare(a, b, "gt")] is true exactly when the number of [a]
    is strictly greater than the number of [b].  A pair with no common
    kind (not both nullish, not both datetimes, not both numbers, not
    both booleans) gets the kind [string] and, its operands having a
    string form, is compared by the strings.  [parseFloat("")] is NaN
    in every ECMAScript runtime. *)
Theorem C3_compare_gt (a b : jsval) :
  (snd (coercePair a b) = KNumber ->
   exists x y, toNumber a = Some x /\ toNumber b = Some y /\
               compare a b "gt" = num_ltb y x) /\
  (snd (coercePair a b) = KString ->
   printable a = true -> printable b = true ->
   compare a b "gt" = Str.ltb (operand_text b) (operand_text a)) /\
  (parseFloat "" = None ->
   (snd (coercePair a b) = KNumber <->
    (exists x y, toNumber a = Some x /\ toNumber b = Some y) /\
    (toDateTime a = None \/ toDateTime b = None))) /\
  (snd (coercePair a b) = KString <->
   isNullish a && isNullish b = false /\
   (toDateTime a = None \/ toDateTime b = None) /\
   (toNumber a = None \/ toNumber b = None) /\
   (toBool a = None \/ toBool b = None)).
Proof.
  split_and!.
  - intros Hk.
    destruct (coercePair_kind_number a b Hk) as (Hn & Hd & x & y & Ha & Hb).
    exists x, y. split_and!; [done..|].
    unfold compare. by rewrite (coercePair_number a b x y Hn Hd Ha Hb).
  - intros Hk _ _.
    destruct (coercePair_kind_string a b Hk) as (Hn & Hd & Hnum & Hbool).
    unfold compare. by rewrite (coercePair_string a b Hn Hd Hnum Hbool).
  - intros Hpf. split.
    + intros Hk.
      destruct (coercePair_kind_number a b Hk) as (_ & Hd & Hxy). done.
    + intros [(x & y & Ha & Hb) Hd].
      assert (isNullish a && isNullish b = false) as Hn.
      { destruct (isNullish a) eqn:Hna; [|done].
        rewrite (nullish_not_number a Hpf Hna) in Ha. discriminate. }
      by rewrite (coercePair_number a b x y Hn Hd Ha Hb).
  - split; [apply coercePair_kind_string|].
    intros (Hn & Hd & Hnum & Hbool).
    by rewrite (coercePair_string a b Hn Hd Hnum Hbool).
Qed.


(** A [between] condition whose payload is not an array of at least two
    elements never matches. *)
Lemma matchCondition_between_wrong_shape (row : RowDict) (cond : jsval) :
  Str.toLowerCase (js_to_string (get_prop cond "operator")) = "between" ->
  (forall lo hi rest,
      js_or (get_prop cond "values") (get_prop cond "value")
      <> JArr (lo :: hi :: rest)) ->
  matchCondition row cond = Ok false.
Proof.
  intros Hop Hshape. unfold matchCondition.
  destruct (negb (truthy cond) || negb (typeof_object cond)); [done|].
  destruct (negb (truthy (get_prop cond "field"))); [done|].
  destruct (get_prop cond "operator") eqn:Hoperator;
    try (rewrite Hop; simpl);
    try (by vm_compute in Hop).
  all: destruct (js_or _ _) as [| | | | |[|lo [|hi rest]]|]; try done.
  all: by destruct (Hshape lo hi rest).
Qed.

End PredicateProps.

Section CacheProps.
Context `{RT : JsRuntime}.
Implicit Types (c : Cache) (st : Service) (cfg : Config).
Implicit Types (range : option string) (sid tr : string).

(** ** The range guard of [readValues] *)

Lemma trimStart_blank s : Str.blank s = true -> Str.trimStart s = "".
Proof.
  induction s as [|a s IH]; simpl; [done|].
  intros [Ha Hs]%andb_prop. rewrite Ha. auto.
Qed.

Lemma trim_blank s : Str.blank s = true -> Str.trim s = "".
Proof. intros H. unfold Str.trim. by rewrite trimStart_blank. Qed.

(** C9. For every spreadsheet id and every [useCache], [readValues]
    with an undefined, empty or white-space-only range throws
    "Range must be a non-empty string" and leaves the cache, the
    in-flight registry and the list of backend fetches untouched. *)
Theorem C9_readValues_blank_range
    (cfg : Config) (st : Service) (spreadsheetId : string)
    (range : option string) (useCache : bool) (now : Z) :
  blank_range range ->
  readValues cfg st spreadsheetId range useCache now
  = (Thrown "Range must be a non-empty string", st).
Proof.
  intros Hb. unfold readValues.
  destruct range as [s|]; simpl in *; [|done].
  by rewrite trim_blank.
Qed.


(** ** The ordered map *)

Lemma cache_get_delete_eq k c : cache_get k (cache_delete k c) = None.
Proof.
  induction c as [|[k' e] c IH]; simpl; [done|].
  destruct (String.eqb k' k) eqn:E; simpl; [done|]. by rewrite E.
Qed.

Lemma cache_get_delete_ne k k' c :
  k <> k' -> cache_get k (cache_delete k' c) = cache_get k c.
Proof.
  intros Hne. induction c as [|[k0 e] c IH]; simpl; [done|].
  destruct (String.eqb k0 k') eqn:E; simpl.
  - apply String.eqb_eq in E as ->.
    by rewrite (proj2 (String.eqb_neq k' k)).
  - by rewrite IH.
Qed.

Lemma cache_get_delete_None k k' c :
  cache_get k c = None -> cache_get k (cache_delete k' c) = None.
Proof.
  intros H. destruct (decide (k = k')) as [->|Hne].
  - apply cache_get_delete_eq.
  - by rewrite cache_get_delete_ne.
Qed.

Lemma cache_get_set_ne k k' e c :
  k <> k' -> cache_get k (cache_set k' e c) = cache_get k c.
Proof.
  intros Hne. induction c as [|[k0 e0] c IH]; simpl.
  - by rewrite (proj2 (String.eqb_neq k' k)).
  - destruct (String.eqb k0 k') eqn:E; simpl.
    + apply String.eqb_eq in E as ->.
      by rewrite (proj2 (String.eqb_neq k' k)).
    + by rewrite IH.
Qed.

Lemma cache_get_filter_None k (f : string * CacheEntry -> bool) c :
  cache_get k c = None -> cache_get k (List.filter f c) = None.
Proof.
  induction c as [|[k0 e0] c IH]; simpl; [done|].
  destruct (String.eqb k0 k) eqn:E; [done|].
  intros H. destruct (f (k0, e0)); simpl; [rewrite E|]; auto.
Qed.

Lemma cache_get_evict_None cfg k c :
  cache_get k c = None -> cache_get k (evict_oldest cfg c) = None.
Proof.
  induction c as [|[k0 e0] c IH]; [done|].
  intros H. cbn [evict_oldest].
  destruct (_ >? _)%Z; [|done].
  destruct (String.eqb k0 ""); [done|].
  apply IH. simpl in H. by destruct (String.eqb k0 k).
Qed.

Lemma cache_get_prune_None cfg now k c :
  cache_get k c = None -> cache_get k (pruneCache cfg now c) = None.
Proof.
  intros H. unfold pruneCache.
  by apply cache_get_evict_None, cache_get_filter_None.
Qed.

(** ** Preservation of the invariant *)

Lemma Inv_initial : Inv initial.
Proof. split; simpl; intros *; by rewrite ?lookup_empty. Qed.

(** Removing cache entries never breaks the invariant. *)
Lemma Inv_cache_delete st k :
  Inv st -> Inv (set_readCache (cache_delete k (readCache st)) st).
Proof.
  intros [H1 H2 H3 H4]. split; simpl; auto.
  intros p fc Hp Huc. by apply cache_get_delete_None, (H4 p).
Qed.

Lemma Inv_fetch_or_join st sid tr key useCache now :
  Inv st ->
  (useCache = true -> cache_get key (readCache st) = None) ->
  Inv (snd (fetch_or_join st sid tr key useCache now)).
Proof.
  intros HI Hc. unfold fetch_or_join. destruct useCache.
  - specialize (Hc eq_refl).
    destruct (inflightReads st !! key) as [q|] eqn:Hq; simpl; [done|].
    destruct HI as [H1 H2 H3 H4]. split; simpl.
    + intros k p [[<- <-]|[Hne Hk]]%lookup_insert_Some.
      * eexists _, _. rewrite lookup_insert_eq. by simpl.
      * destruct (H1 k p Hk) as (fc & ph & Hp & ?).
        exists fc, ph. split; [|done].
        rewrite lookup_insert_ne; [done|]. apply H3 in Hp. lia.
    + intros p fc ph [[<- Heq]|[Hne Hp]]%lookup_insert_Some Huc Hlive.
      * inversion Heq; subst; simpl. by rewrite lookup_insert_eq.
      * pose proof (H2 p fc ph Hp Huc Hlive) as Hreg.
        rewrite lookup_insert_ne; [done|]. congruence.
    + intros p x [[<- _]|[_ Hp]]%lookup_insert_Some; [lia|].
      apply H3 in Hp. lia.
    + intros p fc [[<- Heq]|[Hne Hp]]%lookup_insert_Some Huc.
      * by inversion Heq; subst.
      * by apply (H4 p).
  - simpl. apply (Inv_cache_delete st key) in HI.
    destruct HI as [H1 H2 H3 H4]. simpl in *. split; simpl.
    + intros k p Hk. destruct (H1 k p Hk) as (fc & ph & Hp & ?).
      exists fc, ph. split; [|done].
      rewrite lookup_insert_ne; [done|]. apply H3 in Hp. lia.
    + intros p fc ph [[<- Heq]|[Hne Hp]]%lookup_insert_Some Huc Hlive.
      * by inversion Heq; subst.
      * by apply (H2 p fc ph).
    + intros p x [[<- _]|[_ Hp]]%lookup_insert_Some; [lia|].
      apply H3 in Hp. lia.
    + intros p fc [[<- Heq]|[Hne Hp]]%lookup_insert_Some Huc.
      * by inversion Heq; subst.
      * by apply (H4 p).
Qed.

Lemma Inv_readValues cfg st sid range useCache now :
  Inv st -> Inv (snd (readValues cfg st sid range useCache now)).
Proof.
  intros HI. unfold readValues.
  destruct (Str.trim <$> range) as [[|a tr]|]; simpl; try done.
  set (key := sid +:+ ":" +:+ String a tr).
  destruct useCache; [|by apply Inv_fetch_or_join].
  destruct (cache_get key (readCache st)) as [entry|] eqn:Hget.
  - destruct (_ <=? _)%Z; simpl.
    + destruct HI as [H1 H2 H3 H4]. split; simpl; auto.
      intros p fc Hp Huc. pose proof (H4 p fc Hp Huc) as Hnone.
      assert (fc_key fc <> key) by congruence.
      by rewrite cache_get_set_ne, cache_get_delete_ne.
    + apply Inv_fetch_or_join; [by apply Inv_cache_delete|].
      intros _. simpl. apply cache_get_delete_eq.
  - by apply Inv_fetch_or_join.
Qed.

Lemma Inv_resolve cfg st p r : Inv st -> Inv (resolve cfg st p r).
Proof.
  intros HI. unfold resolve.
  destruct (promises st !! p) as [[fc [| |]]|] eqn:Hp; try done.
  pose proof HI as [H1 H2 H3 H4]. split; simpl.
  - intros k q Hk. destruct (H1 k q Hk) as (fc' & ph & Hq & ? & ? & ?).
    destruct (decide (q = p)) as [->|Hne].
    + rewrite Hp in Hq. inversion Hq; subst.
      exists fc', (Settled r). by rewrite lookup_insert_eq.
    + exists fc', ph. by rewrite lookup_insert_ne.
  - intros q fc' ph [[<- Heq]|[Hne Hq]]%lookup_insert_Some Huc Hlive.
    + inversion Heq; subst. by apply (H2 p fc' Fetching).
    + by apply (H2 q fc' ph).
  - intros q x [[<- _]|[_ Hq]]%lookup_insert_Some; eauto.
  - intros q fc' [[<- Heq]|[Hne Hq]]%lookup_insert_Some Huc; [done|].
    pose proof (H4 q fc' Hq Huc) as Hnone.
    destruct r as [values|]; [|done].
    destruct (fc_useCache fc) eqn:Hfc; [|done].
    assert (fc_key fc' <> fc_key fc) as Hkeys.
    { intros Heq.
      pose proof (H2 p fc Fetching Hp Hfc eq_refl) as Hreg1.
      pose proof (H2 q fc' Fetching Hq Huc eq_refl) as Hreg2.
      rewrite Heq in Hreg2. congruence. }
    rewrite cache_get_set_ne by done.
    by apply cache_get_prune_None.
Qed.

Lemma Inv_finalize st p : Inv st -> Inv (finalize st p).
Proof.
  intros HI. unfold finalize.
  destruct (promises st !! p) as [[fc [|r|]]|] eqn:Hp; try done.
  pose proof HI as [H1 H2 H3 H4]. split; simpl.
  - intros k q Hk.
    assert (inflightReads st !! k = Some q /\
            (fc_useCache fc = true -> k <> fc_key fc)) as [Hk' Hkey].
    { destruct (fc_useCache fc); [|done].
      apply lookup_delete_Some in Hk as [? ?]. split; [done|]. congruence. }
    destruct (H1 k q Hk') as (fc' & ph & Hq & Hfk & Huc & Hlive).
    exists fc', ph. split; [|done].
    rewrite lookup_insert_ne; [done|].
    intros ->. rewrite Hp in Hq. inversion Hq; subst. by apply Hkey.
  - intros q fc' ph [[<- Heq]|[Hne Hq]]%lookup_insert_Some Huc Hlive.
    + by inversion Heq; subst.
    + pose proof (H2 q fc' ph Hq Huc Hlive) as Hreg.
      destruct (fc_useCache fc) eqn:Hfc; [|done].
      rewrite lookup_delete_ne; [done|].
      intros Heq. pose proof (H2 p fc (Settled r) Hp Hfc eq_refl) as Hreg'.
      rewrite Heq in Hreg'. congruence.
  - intros q x [[<- _]|[_ Hq]]%lookup_insert_Some; eauto.
  - intros q fc' [[<- Heq]|[Hne Hq]]%lookup_insert_Some Huc; [done|].
    by apply (H4 q).
Qed.

Lemma Inv_step cfg st ev : Inv st -> Inv (step cfg st ev).
Proof.
  destruct ev; simpl;
    auto using Inv_readValues, Inv_resolve, Inv_finalize.
Qed.

Lemma Inv_run cfg evs : forall st, Inv st -> Inv (run cfg st evs).
Proof.
  unfold run. induction evs as [|ev evs IH]; simpl; [done|].
  intros st HI. by apply IH, Inv_step.
Qed.

Lemma Inv_reachable cfg st : reachable cfg st -> Inv st.
Proof. intros [evs ->]. apply Inv_run, Inv_initial. Qed.

(** ** Single flight *)

(** A call never touches a promise that already exists. *)
Lemma fetch_or_join_promises st sid tr key useCache now p x :
  p < nextPromise st -> promises st !! p = Some x ->
  promises (snd (fetch_or_join st sid tr key useCache now)) !! p = Some x.
Proof.
  intros Hlt Hp. unfold fetch_or_join.
  destruct useCache; simpl.
  - destruct (inflightReads st !! key); simpl; [done|].
    rewrite lookup_insert_ne; [done|lia].
  - rewrite lookup_insert_ne; [done|lia].
Qed.

Lemma readValues_promises cfg st sid range useCache now p x :
  p < nextPromise st -> promises st !! p = Some x ->
  promises (snd (readValues cfg st sid range useCache now)) !! p = Some x.
Proof.
  intros Hlt Hp. unfold readValues.
  destruct (Str.trim <$> range) as [[|a tr]|]; simpl; try done.
  destruct (if useCache then _ else _) as [entry|].
  - destruct (_ <=? _)%Z; simpl; [done|].
    by apply fetch_or_join_promises.
  - by apply fetch_or_join_promises.
Qed.

Lemma step_keeps_fetching cfg st ev p fc :
  Inv st -> promises st !! p = Some (fc, Fetching) ->
  (forall r, ev <> EvResolve p r) ->
  promises (step cfg st ev) !! p = Some (fc, Fetching).
Proof.
  intros HI Hp Hev. destruct ev as [sid range uc now|q r|q]; simpl.
  - apply readValues_promises; [|done]. by eapply inv_fresh.
  - assert (q <> p) by (intros ->; by apply (Hev r)).
    unfold resolve. destruct (promises st !! q) as [[fc' [| |]]|]; try done.
    simpl. by rewrite lookup_insert_ne.
  - unfold finalize.
    destruct (promises st !! q) as [[fc' [|r|]]|] eqn:Hq; try done.
    simpl. rewrite lookup_insert_ne; [done|]. congruence.
Qed.

Lemma step_keeps_settled cfg st ev p fc r :
  Inv st -> promises st !! p = Some (fc, Settled r) ->
  ev <> EvFinalize p ->
  promises (step cfg st ev) !! p = Some (fc, Settled r).
Proof.
  intros HI Hp Hev. destruct ev as [sid range uc now|q r'|q]; simpl.
  - apply readValues_promises; [|done]. by eapply inv_fresh.
  - unfold resolve.
    destruct (promises st !! q) as [[fc' [| |]]|] eqn:Hq; try done.
    simpl. rewrite lookup_insert_ne; [done|]. congruence.
  - assert (q <> p) by congruence.
    unfold finalize. destruct (promises st !! q) as [[fc' [| |]]|]; try done.
    simpl. by rewrite lookup_insert_ne.
Qed.

Lemma run_keeps_fetching cfg p fc evs :
  Forall (fun ev => forall r, ev <> EvResolve p r) evs ->
  forall st, Inv st -> promises st !! p = Some (fc, Fetching) ->
  promises (run cfg st evs) !! p = Some (fc, Fetching).
Proof.
  unfold run. induction 1 as [|ev evs Hev _ IH]; simpl; [done|].
  intros st HI Hp. apply IH; [by apply Inv_step|].
  by apply step_keeps_fetching.
Qed.

Lemma run_keeps_settled cfg p fc r evs :
  Forall (fun ev => ev <> EvFinalize p) evs ->
  forall st, Inv st -> promises st !! p = Some (fc, Settled r) ->
  promises (run cfg st evs) !! p = Some (fc, Settled r).
Proof.
  unfold run. induction 1 as [|ev evs Hev _ IH]; simpl; [done|].
  intros st HI Hp. apply IH; [by apply Inv_step|].
  by apply step_keeps_settled.
Qed.

(** A call for a key whose cached fetch is pending joins that fetch
    and changes nothing. *)
Lemma readValues_joins cfg st sid range tr now p fc :
  Inv st -> Str.trim <$> range = Some tr -> tr <> "" ->
  promises st !! p = Some (fc, Fetching) ->
  fc_useCache fc = true -> fc_key fc = sid +:+ ":" +:+ tr ->
  readValues cfg st sid range true now = (Awaiting p, st).
Proof.
  intros HI Htr Hne Hp Huc Hkey. unfold readValues. rewrite Htr.
  destruct tr as [|a tr]; [done|].
  pose proof (inv_nocache st HI p fc Hp Huc) as Hnone.
  pose proof (inv_registered st HI p fc Fetching Hp Huc eq_refl) as Hreg.
  rewrite Hkey in Hnone, Hreg. rewrite Hnone.
  unfold fetch_or_join. by rewrite Hreg.
Qed.

(** A call with no usable cache entry and no registered fetch issues
    one backend fetch and registers its promise. *)
Lemma readValues_fetches cfg st sid range tr now :
  Str.trim <$> range = Some tr -> tr <> "" ->
  inflightReads st !! (sid +:+ ":" +:+ tr) = None ->
  (forall e, cache_get (sid +:+ ":" +:+ tr) (readCache st) = Some e ->
             expired cfg now e = true) ->
  exists s1,
    readValues cfg st sid range true now = (Awaiting (nextPromise st), s1) /\
    fetchCalls s1 = fetchCalls st ++ [(sid, tr)] /\
    promises s1 !! nextPromise st
    = Some ({| fc_key := sid +:+ ":" +:+ tr; fc_now := now;
               fc_useCache := true |}, Fetching).
Proof.
  intros Htr Hne Hin Hexp. unfold readValues. rewrite Htr.
  destruct tr as [|a tr]; [done|].
  set (key := sid +:+ ":" +:+ String a tr) in *.
  destruct (cache_get key (readCache st)) as [entry|] eqn:Hget.
  - specialize (Hexp entry eq_refl). unfold expired in Hexp.
    destruct (Z.leb_spec (now - timestamp entry) (CACHE_TTL cfg)) as [Hle|Hgt].
    { apply Z.gtb_lt in Hexp. lia. }
    unfold fetch_or_join; simpl. rewrite Hin.
    eexists. split; [reflexivity|]. simpl.
    split; [done|]. by rewrite lookup_insert_eq.
  - unfold fetch_or_join; simpl. rewrite Hin.
    eexists. split; [reflexivity|]. simpl.
    split; [done|]. by rewrite lookup_insert_eq.
Qed.

(** C2. Let a caller invoke [readValues] with [useCache = true] for a
    key that has no valid cache entry and no registered fetch: one
    backend fetch is issued.  A second caller for the same key that
    enters, after any interleaving of other events, before that fetch
    settles receives the same promise and issues no fetch (the
    service state is unchanged); whatever the fetch settles with,
    success or failure, is what both receive, and once the [finally]
    callback has run the in-flight entry of the key is gone. *)
Theorem C2_single_flight cfg st sid range tr now1 :
  reachable cfg st ->
  Str.trim <$> range = Some tr -> tr <> "" ->
  inflightReads st !! (sid +:+ ":" +:+ tr) = None ->
  (forall e, cache_get (sid +:+ ":" +:+ tr) (readCache st) = Some e ->
             expired cfg now1 e = true) ->
  exists p s1,
    readValues cfg st sid range true now1 = (Awaiting p, s1) /\
    fetchCalls s1 = fetchCalls st ++ [(sid, tr)] /\
    forall evs1,
      Forall (fun ev => forall r, ev <> EvResolve p r) evs1 ->
      let s2 := run cfg s1 evs1 in
      (forall now2,
          readValues cfg s2 sid range true now2 = (Awaiting p, s2)) /\
      forall r evs2,
        Forall (fun ev => ev <> EvFinalize p) evs2 ->
        let s3 := run cfg (resolve cfg s2 p r) evs2 in
        promise_result s3 p = Some r /\
        promise_result (finalize s3 p) p = Some r /\
        inflightReads (finalize s3 p) !! (sid +:+ ":" +:+ tr) = None.
Proof.
  intros Hreach Htr Hne Hin Hexp.
  pose proof (Inv_reachable cfg st Hreach) as HI.
  destruct (readValues_fetches cfg st sid range tr now1 Htr Hne Hin Hexp)
    as (s1 & Hcall & Hlog & Hp1).
  set (fc := {| fc_key := sid +:+ ":" +:+ tr; fc_now := now1;
                fc_useCache := true |}) in *.
  exists (nextPromise st), s1. split; [done|]. split; [done|].
  assert (Inv s1) as HI1.
  { replace s1 with (snd (readValues cfg st sid range true now1))
      by (by rewrite Hcall).
    by apply Inv_readValues. }
  intros evs1 Hevs1 s2.
  assert (Inv s2) as HI2 by by apply Inv_run.
  assert (promises s2 !! nextPromise st = Some (fc, Fetching)) as Hp2
    by by apply run_keeps_fetching.
  split.
  { intros now2. by apply (readValues_joins cfg s2 sid range tr now2 _ fc). }
  intros r evs2 Hevs2 s3.
  assert (Inv (resolve cfg s2 (nextPromise st) r)) as HIr
    by by apply Inv_resolve.
  assert (promises (resolve cfg s2 (nextPromise st) r) !! nextPromise st
          = Some (fc, Settled r)) as Hpr.
  { unfold resolve. rewrite Hp2. simpl. by rewrite lookup_insert_eq. }
  assert (promises s3 !! nextPromise st = Some (fc, Settled r)) as Hp3
    by by apply run_keeps_settled.
  unfold promise_result, finalize. rewrite Hp3. simpl.
  rewrite lookup_insert_eq, lookup_delete_eq. done.
Qed.

(** ** Recency and capacity *)

Lemma cache_set_fresh k (e : CacheEntry) c :
  cache_get k c = None -> cache_set k e c = c ++ [(k, e)].
Proof.
  induction c as [|[k' e'] c IH]; simpl; [done|].
  destruct (String.eqb k' k); [done|]. intros H. by rewrite IH.
Qed.

(** A cache hit within the TTL returns the cached rows and moves the
    entry to the most-recently-used end. *)
Lemma readValues_hit cfg st sid range tr now (e : CacheEntry) :
  Str.trim <$> range = Some tr -> tr <> "" ->
  cache_get (sid +:+ ":" +:+ tr) (readCache st) = Some e ->
  expired cfg now e = false ->
  readValues cfg st sid range true now
  = (Returned (data e),
     set_readCache
       (cache_delete (sid +:+ ":" +:+ tr) (readCache st)
          ++ [(sid +:+ ":" +:+ tr, e)]) st).
Proof.
  intros Htr Hne Hget Hfresh. unfold readValues. rewrite Htr.
  destruct tr as [|a tr]; [done|]. rewrite Hget.
  unfold expired in Hfresh.
  destruct (Z.leb_spec (now - timestamp e) (CACHE_TTL cfg)) as [Hle|Hgt].
  - by rewrite cache_set_fresh by apply cache_get_delete_eq.
  - rewrite Z.gtb_ltb in Hfresh. apply Z.ltb_ge in Hfresh. lia.
Qed.

Lemma evict_oldest_within cfg c :
  (Z.of_nat (length c) <= CACHE_MAX_ENTRIES cfg)%Z -> evict_oldest cfg c = c.
Proof.
  destruct c as [|[k e] c]; [done|]. intros Hle. cbn [evict_oldest].
  destruct (Z.gtb_spec (Z.of_nat (length ((k, e) :: c)))
              (CACHE_MAX_ENTRIES cfg)); [lia|done].
Qed.

Lemma filter_all_fresh cfg now c :
  Forall (fun ke => expired cfg now ke.2 = false) c ->
  List.filter (fun ke => negb (expired cfg now (snd ke))) c = c.
Proof.
  induction 1 as [|[k e] c Hke _ IH]; simpl in *; [done|].
  by rewrite Hke, IH.
Qed.

(** Storing into a cache that is full of fresh entries evicts nothing:
    pruning runs before the insertion and finds the size within bound. *)
Lemma store_at_capacity cfg now k (values : Grid) c :
  Forall (fun ke => expired cfg now ke.2 = false) c ->
  Z.of_nat (length c) = CACHE_MAX_ENTRIES cfg ->
  cache_get k c = None ->
  cache_set k {| timestamp := now; data := values |} (pruneCache cfg now c)
  = c ++ [(k, {| timestamp := now; data := values |})].
Proof.
  intros Hfresh Hfull Hnew. unfold pruneCache.
  rewrite filter_all_fresh, evict_oldest_within by (done || lia).
  by apply cache_set_fresh.
Qed.

End CacheProps.

Section PostFilterProps.
Context `{RT : JsRuntime}.

(** ** Dedup post-filter *)

Lemma unique_loop_sublist keys seen (rows : list RowDict) :
  sublist (unique_loop keys seen rows) rows.
Proof.
  revert seen. induction rows as [|row rows IH]; intros seen; simpl.
  - constructor.
  - case_decide.
    + by apply sublist_cons.
    + by apply sublist_skip.
Qed.

(** A second pass that starts from a smaller [seen] set keeps every
    row the first pass kept. *)
Lemma unique_loop_again keys (rows : list RowDict) :
  forall s1 s2 : gset string, s2 ⊆ s1 ->
    unique_loop keys s2 (unique_loop keys s1 rows)
    = unique_loop keys s1 rows.
Proof.
  induction rows as [|row rows IH]; intros s1 s2 Hsub; simpl; [done|].
  destruct (decide (compoundKey keys row ∈ s1)) as [Hin|Hnin].
  - by apply IH.
  - simpl. rewrite decide_False by (intros Hin; by apply Hnin, Hsub).
    f_equal. apply IH. by apply union_mono_l.
Qed.

(** C10. The dedup post-filter returns a subsequence of its input, in
    the original order, and applying it a second time with the same
    [uniqueBy] changes nothing. *)
Theorem C10_applyUnique_selective_idempotent
    (rows : list RowDict) (uniqueBy : jsval) :
  sublist (applyUnique rows uniqueBy) rows /\
  applyUnique (applyUnique rows uniqueBy) uniqueBy = applyUnique rows uniqueBy.
Proof.
  unfold applyUnique. destruct (truthy uniqueBy); simpl.
  - split; [apply unique_loop_sublist | by apply unique_loop_again].
  - done.
Qed.

End PostFilterProps.

Section WriteProps.
Context `{RT : JsRuntime}.
Implicit Types (headers old new cur : list jsval) (data entries : RowDict).
Implicit Types (rows : list RowDict) (key : string).

(** ** Locating rows *)




(** ** Applying a patch to one row *)








Lemma patch_changes_insert headers entries cur j v :
  (forall kv, kv ∈ entries -> indexOf headers kv.1 <> Some j) ->
  patch_changes headers entries (<[j := v]> cur)
  = patch_changes headers entries cur.
Proof.
  induction entries as [|[k' v'] entries IH]; intros Hout; [done|].
  cbn [patch_changes existsb fst snd].
  fold (patch_changes headers entries (<[j := v]> cur)).
  fold (patch_changes headers entries cur).
  rewrite IH by (intros kv Hkv; apply Hout; by right).
  f_equal. destruct (indexOf headers k') as [j'|] eqn:Hk'; [|done].
  assert (j <> j') as Hne.
  { intros ->. by apply (Hout (k', v')); [left|]. }
  by rewrite !nth_lookup, list_lookup_insert_ne.
Qed.






(** ** Scheduling the writes *)







(** ** Reading a row back through the normaliser *)

Lemma lookup_set_prop_eq k (v : jsval) (ps : RowDict) :
  lookup_prop k (set_prop k v ps) = v.
Proof.
  induction ps as [|[k' v'] ps IH]; simpl.
  - by rewrite String.eqb_refl.
  - destruct (String.eqb k' k) eqn:E; simpl; by rewrite E.
Qed.

Lemma lookup_set_prop_ne k k' (v : jsval) (ps : RowDict) :
  k <> k' -> lookup_prop k (set_prop k' v ps) = lookup_prop k ps.
Proof.
  intros Hne. induction ps as [|[k0 v0] ps IH]; simpl.
  - by rewrite (proj2 (String.eqb_neq k' k)).
  - destruct (String.eqb k0 k') eqn:E; simpl.
    + apply String.eqb_eq in E as ->.
      by rewrite (proj2 (String.eqb_neq k' k)).
    + by rewrite IH.
Qed.

Lemma normalize_from_other (names : list string) name :
  name ∉ names ->
  forall i raw (acc : RowDict),
    lookup_prop name (normalize_from i (JStr <$> names) raw acc)
    = lookup_prop name acc.
Proof.
  induction names as [|n0 names IH]; intros Hnotin i raw acc; [done|].
  apply not_elem_of_cons in Hnotin as [Hne Hnotin].
  cbn [fmap list_fmap normalize_from js_nullish_or js_to_string].
  rewrite (IH Hnotin). by apply lookup_set_prop_ne.
Qed.

(** With distinct column names, column [j] of the normalised row
    holds cell [j] of the raw row, or the empty string past its end. *)
Lemma normalize_from_lookup (names : list string) :
  NoDup names ->
  forall i raw (acc : RowDict) j name,
    names !! j = Some name ->
    lookup_prop name (normalize_from i (JStr <$> names) raw acc)
    = default (JStr "") (raw !! j).
Proof.
  induction 1 as [|n0 names Hnotin Hnd IH]; intros i raw acc j name Hj;
    [done|].
  cbn [fmap list_fmap normalize_from js_nullish_or js_to_string].
  destruct j as [|j]; simpl in Hj.
  - injection Hj as ->. rewrite normalize_from_other by done.
    rewrite lookup_set_prop_eq. by destruct raw.
  - rewrite (IH _ _ _ j name Hj). by destruct raw.
Qed.



(** ** Patches and the header list *)





End WriteProps.

(** * Further properties of the predicate engine *)

Section StringProps.

Lemma lower_ascii_idem (a : ascii) :
  Str.lower_ascii (Str.lower_ascii a) = Str.lower_ascii a.
Proof. destruct a as [[] [] [] [] [] [] [] []]; reflexivity. Qed.

Lemma toLowerCase_idem (s : string) :
  Str.toLowerCase (Str.toLowerCase s) = Str.toLowerCase s.
Proof.
  induction s as [|a s IH]; simpl; [done|].
  by rewrite lower_ascii_idem, IH.
Qed.

Lemma toLowerCase_app (s t : string) :
  Str.toLowerCase (s +:+ t) = Str.toLowerCase s +:+ Str.toLowerCase t.
Proof. induction s as [|a s IH]; simpl; [done|]. by rewrite IH. Qed.

Lemma startsWith_spec (s p : string) :
  Str.startsWith s p = true <-> exists post, s = p +:+ post.
Proof.
  revert s. induction p as [|b p IH]; intros s.
  - split; [intros _; by exists s | intros _; by destruct s].
  - destruct s as [|a s]; cbn [Str.startsWith].
    + split; [done|]. intros [post Hpost]. discriminate Hpost.
    + rewrite andb_true_iff, Ascii.eqb_eq, IH. split.
      * intros [-> [post ->]]. by exists post.
      * intros [post [= -> ->]]. split; [done|]. by exists post.
Qed.

(** [includes] is the substring relation. *)
Lemma includes_spec (s p : string) :
  Str.includes s p = true <-> exists pre post, s = pre +:+ p +:+ post.
Proof.
  induction s as [|a s IH]; cbn [Str.includes].
  - rewrite orb_false_r, startsWith_spec. split.
    + intros [post Hpost]. by exists "", post.
    + intros (pre & post & Heq). destruct pre; [by exists post|done].
  - rewrite orb_true_iff, startsWith_spec, IH. split.
    + intros [[post Hpost]|(pre & post & ->)].
      * by exists "", post.
      * by exists (String a pre), post.
    + intros (pre & post & Heq). destruct pre as [|a' pre].
      * left. by exists post.
      * right. injection Heq as -> ->. by exists pre, post.
Qed.

End StringProps.

Section MorePredicateProps.
Context `{RT : JsRuntime}.

(** ** Kinds of coerced pairs *)

Lemma coercePair_null (a b : jsval) :
  isNullish a = true -> isNullish b = true ->
  coercePair a b = (SNull, SNull, KNull).
Proof. intros Ha Hb. unfold coercePair. by rewrite Ha, Hb. Qed.

Lemma coercePair_datetime (a b : jsval) (ta tb : num) :
  isNullish a && isNullish b = false ->
  toDateTime a = Some ta -> toDateTime b = Some tb ->
  coercePair a b = (SDate ta, SDate tb, KDatetime).
Proof. intros Hn Ha Hb. unfold coercePair. by rewrite Hn, Ha, Hb. Qed.

Lemma coercePair_bool (a b : jsval) (lb rb : bool) :
  isNullish a && isNullish b = false ->
  toDateTime a = None \/ toDateTime b = None ->
  toNumber a = None \/ toNumber b = None ->
  toBool a = Some lb -> toBool b = Some rb ->
  coercePair a b = (SBool lb, SBool rb, KBool).
Proof.
  intros Hn Hd Hnum Ha Hb. unfold coercePair. rewrite Hn, Ha, Hb.
  destruct (toDateTime a), (toDateTime b), (toNumber a), (toNumber b);
    try done; by destruct Hd, Hnum.
Qed.

(** X1. A pair that coerces to booleans (not both nullish, not both
    datetimes, not both numbers) is compared for equality as booleans,
    and never satisfies an ordering operator. *)
Theorem X1_booleans_are_not_ordered (a b : jsval) (lb rb : bool) :
  isNullish a && isNullish b = false ->
  toDateTime a = None \/ toDateTime b = None ->
  toNumber a = None \/ toNumber b = None ->
  toBool a = Some lb -> toBool b = Some rb ->
  compare a b "eq" = Bool.eqb lb rb /\
  compare a b "ne" = negb (Bool.eqb lb rb) /\
  compare a b "gt" = false /\ compare a b "gte" = false /\
  compare a b "lt" = false /\ compare a b "lte" = false.
Proof.
  intros Hn Hd Hnum Ha Hb. unfold compare.
  by rewrite (coercePair_bool a b lb rb Hn Hd Hnum Ha Hb).
Qed.

(** X2. Two values that both parse as datetimes (and are not both
    nullish) are ordered by their time values, but are never equal:
    [eq] is false and [ne] is true even when the two time values
    coincide, the two [Date] objects being distinct. *)
Theorem X2_datetimes_never_equal (a b : jsval) (ta tb : num) :
  isNullish a && isNullish b = false ->
  toDateTime a = Some ta -> toDateTime b = Some tb ->
  compare a b "eq" = false /\ compare a b "ne" = true /\
  compare a b "gt" = num_ltb tb ta /\ compare a b "gte" = num_leb tb ta /\
  compare a b "lt" = num_ltb ta tb /\ compare a b "lte" = num_leb ta tb.
Proof.
  intros Hn Ha Hb. unfold compare.
  by rewrite (coercePair_datetime a b ta tb Hn Ha Hb).
Qed.

(** X3. When both sides are nullish (null, undefined or the empty
    string), [eq] holds and every other operator, supported or not,
    fails. *)
Theorem X3_nullish_pair (a b : jsval) (op : string) :
  isNullish a = true -> isNullish b = true ->
  compare a b op = String.eqb op "eq".
Proof.
  intros Ha Hb. unfold compare. rewrite (coercePair_null a b Ha Hb). simpl.
  destruct (String.eqb op "eq") eqn:Heq; [done|].
  by destruct (String.eqb op "ne").
Qed.

(** X4. Against a non-empty string, [null] is compared as the empty
    text and is never equal; a missing cell ([undefined]) is compared
    as the text "undefined" and so equals exactly that string. *)
Theorem X4_null_against_text (s : string) :
  s <> "" ->
  compare JNull (JStr s) "eq" = false /\
  compare JUndefined (JStr s) "eq" = String.eqb "undefined" s.
Proof.
  intros Hs%String.eqb_neq. unfold compare, coercePair. simpl.
  rewrite Hs. simpl. by destruct s.
Qed.

(** X5. When the cell and both bounds coerce to numbers and the cell
    does not parse as a datetime, [between] is the inclusive numeric
    range test. *)
Theorem X5_between_numbers (cell low high : jsval) (c l h : num) :
  parseFloat "" = None ->
  toDateTime cell = None ->
  toNumber cell = Some c -> toNumber low = Some l -> toNumber high = Some h ->
  between cell low high = num_leb l c && num_leb c h.
Proof.
  intros Hpf Hd Hc Hl Hh.
  assert (isNullish cell = false) as Hn.
  { destruct (isNullish cell) eqn:E; [|done].
    rewrite (nullish_not_number cell Hpf E) in Hc. discriminate. }
  unfold between.
  rewrite (coercePair_number cell low c l), (coercePair_number cell high c h);
    auto; by rewrite Hn.
Qed.

(** X6. [like] on two texts ignores the case of the ASCII letters:
    lower-casing the cell and the pattern beforehand does not change
    the outcome.  A text that is not empty matches itself.  A nullish
    cell or pattern ([null], [undefined] or the empty string) never
    matches, whatever the other side is. *)
Theorem X6_like_ignores_ascii_case (s p : string) :
  like (JStr s) (JStr p)
  = like (JStr (Str.toLowerCase s)) (JStr (Str.toLowerCase p)) /\
  (s <> "" -> like (JStr s) (JStr s) = true) /\
  (forall cell : jsval,
      like cell JNull = false /\ like cell JUndefined = false /\
      like cell (JStr "") = false /\ like JNull cell = false /\
      like JUndefined cell = false /\ like (JStr "") cell = false).
Proof.
  split_and!.
  - unfold like. cbn [isNullish js_to_string]. rewrite !toLowerCase_idem.
    by destruct s, p.
  - intros Hs. unfold like. cbn [isNullish js_to_string].
    destruct s as [|a s]; [done|].
    change (String.eqb (String a s) "") with false. cbn [orb].
    assert (forall t : string, t +:+ "" = t) as Hnil.
    { intros t. induction t as [|b t IH]; [done|].
      change (String b t +:+ "") with (String b (t +:+ "")). by rewrite IH. }
    apply includes_spec. exists "", "". by rewrite Hnil.
  - intros cell. unfold like. cbn [isNullish].
    change (String.eqb "" "") with true.
    by rewrite ?orb_true_r.
Qed.


(** ** Operators *)

(** X7. The operator of a condition is case-insensitive. *)
Theorem X7_operator_case_insensitive
    (row : RowDict) (op : string) (ps : list (string * jsval)) :
  matchCondition row (JObj (("operator", JStr op) :: ps))
  = matchCondition row (JObj (("operator", JStr (Str.toLowerCase op)) :: ps)).
Proof.
  unfold matchCondition. cbn [get_prop lookup_prop].
  change (String.eqb "operator" "field") with false.
  change (String.eqb "operator" "operator") with true.
  change (String.eqb "operator" "value") with false.
  change (String.eqb "operator" "values") with false.
  cbn [js_to_string]. by rewrite toLowerCase_idem.
Qed.

(** X8. For a condition with a field, on a row and a condition whose
    cells, field and operands have a string form (so that no conversion
    to a string throws): [is_not_null] is the negation of [is_null],
    [ne] the negation of [eq], and, when [values] is absent or an
    array, [not_in] the negation of [in]. *)
Theorem X8_negated_operators (row : RowDict) (ps : list (string * jsval)) :
  let cond op := JObj (("operator", JStr op) :: ps) in
  truthy (lookup_prop "field" ps) = true ->
  printable_row row = true ->
  printable_condition (JObj ps) = true ->
  (exists b, matchCondition row (cond "is_null") = Ok b /\
             matchCondition row (cond "is_not_null") = Ok (negb b)) /\
  (exists b, matchCondition row (cond "eq") = Ok b /\
             matchCondition row (cond "ne") = Ok (negb b)) /\
  (well_shaped (JObj ps) = true ->
   exists b, matchCondition row (cond "in") = Ok b /\
             matchCondition row (cond "not_in") = Ok (negb b)).
Proof.
  intros cond Hf _ _. unfold cond, matchCondition. cbn [get_prop lookup_prop].
  change (String.eqb "operator" "field") with false.
  change (String.eqb "operator" "operator") with true.
  change (String.eqb "operator" "value") with false.
  change (String.eqb "operator" "values") with false.
  cbv beta iota. rewrite Hf. cbn [negb truthy typeof_object orb js_to_string].
  split_and!.
  - by eexists.
  - eexists. split; [reflexivity|]. cbn.
    unfold compare. destruct (coercePair _ _) as [[a b] kind]. cbn.
    by destruct (is_null a || is_null b).
  - intros Hshape. unfold well_shaped in Hshape. cbn [get_prop] in Hshape.
    cbn. unfold js_or.
    destruct (truthy (lookup_prop "values" ps)) eqn:Hv; simpl in Hshape.
    + destruct (lookup_prop "values" ps); try discriminate.
      cbn [inList]. rewrite some_total. by eexists.
    + destruct (isArray (lookup_prop "value" ps)) eqn:Ha.
      * destruct (lookup_prop "value" ps); try discriminate.
        cbn [inList]. rewrite some_total. by eexists.
      * cbn [inList]. rewrite some_total. by eexists.
Qed.


(** ** Filtering rows *)




End MorePredicateProps.

(** * Further properties of the cache manager *)

Section MoreCacheProps.
Context `{RT : JsRuntime}.
Implicit Types (c : Cache) (st : Service) (cfg : Config).
Implicit Types (range : option string) (sid tr : string).

(** ** Pruning *)

Lemma evict_oldest_drop cfg c :
  Forall (fun ke => ke.1 <> "") c ->
  evict_oldest cfg c
  = drop (length c - Z.to_nat (CACHE_MAX_ENTRIES cfg)) c.
Proof.
  induction 1 as [|[k e] c Hk _ IH]; [done|].
  cbn [evict_oldest]. simpl in Hk.
  destruct (Z.gtb_spec (Z.of_nat (length ((k, e) :: c)))
              (CACHE_MAX_ENTRIES cfg)) as [Hgt|Hle].
  - rewrite (proj2 (String.eqb_neq k "") Hk), IH. cbn [length] in *.
    replace (S (length c) - Z.to_nat (CACHE_MAX_ENTRIES cfg))
      with (S (length c - Z.to_nat (CACHE_MAX_ENTRIES cfg))) by lia.
    done.
  - cbn [length] in *.
    by replace (S (length c) - Z.to_nat (CACHE_MAX_ENTRIES cfg)) with 0 by lia.
Qed.

Lemma filter_keys_nonempty (f : string * CacheEntry -> bool) c :
  Forall (fun ke => ke.1 <> "") c ->
  Forall (fun ke => ke.1 <> "") (List.filter f c).
Proof.
  induction 1 as [|ke c Hk _ IH]; simpl; [constructor|].
  destruct (f ke); [by constructor|done].
Qed.

(** X11. [pruneCache] keeps, of the entries that have not expired, the
    [CACHE_MAX_ENTRIES] most recently used ones (none when the bound is
    not positive), in their order; everything else is removed. *)
Theorem X11_pruneCache_keeps_newest cfg (now : Z) c :
  Forall (fun ke => ke.1 <> "") c ->
  let fresh := List.filter (fun ke => negb (expired cfg now (snd ke))) c in
  pruneCache cfg now c
  = drop (length fresh - Z.to_nat (CACHE_MAX_ENTRIES cfg)) fresh.
Proof.
  intros Hkeys fresh. unfold pruneCache. fold fresh.
  by apply evict_oldest_drop, filter_keys_nonempty.
Qed.

Lemma pruneCache_length cfg (now : Z) c :
  Forall (fun ke => ke.1 <> "") c ->
  length (pruneCache cfg now c) <= Z.to_nat (CACHE_MAX_ENTRIES cfg).
Proof.
  intros Hkeys. unfold pruneCache.
  rewrite evict_oldest_drop by by apply filter_keys_nonempty.
  rewrite length_drop. lia.
Qed.

Lemma pruneCache_keys_nonempty cfg (now : Z) c :
  Forall (fun ke => ke.1 <> "") c ->
  Forall (fun ke => ke.1 <> "") (pruneCache cfg now c).
Proof.
  intros Hkeys. unfold pruneCache.
  rewrite evict_oldest_drop by by apply filter_keys_nonempty.
  by apply Forall_drop, filter_keys_nonempty.
Qed.

(** ** The size of the cache *)

Lemma cache_delete_length k c : length (cache_delete k c) <= length c.
Proof.
  induction c as [|[k' e] c IH]; simpl; [done|].
  destruct (String.eqb k' k); simpl; lia.
Qed.

Lemma cache_delete_shrinks k c (e : CacheEntry) :
  cache_get k c = Some e -> length (cache_delete k c) < length c.
Proof.
  induction c as [|[k' e'] c IH]; simpl; [done|].
  destruct (String.eqb k' k); simpl.
  - intros _. pose proof (cache_delete_length k c). lia.
  - intros H. apply IH in H. lia.
Qed.

Lemma cache_set_length k (e : CacheEntry) c :
  length (cache_set k e c) <= S (length c).
Proof.
  induction c as [|[k' e'] c IH]; simpl; [done|].
  destruct (String.eqb k' k); simpl; lia.
Qed.

Lemma cache_delete_keys_nonempty k c :
  Forall (fun ke => ke.1 <> "") c ->
  Forall (fun ke => ke.1 <> "") (cache_delete k c).
Proof.
  induction 1 as [|[k' e] c Hk _ IH]; simpl; [constructor|].
  destruct (String.eqb k' k); [done|by constructor].
Qed.

Lemma cache_set_keys_nonempty k (e : CacheEntry) c :
  k <> "" -> Forall (fun ke => ke.1 <> "") c ->
  Forall (fun ke => ke.1 <> "") (cache_set k e c).
Proof.
  intros Hk. induction 1 as [|[k' e'] c Hk' Hc IH]; simpl.
  - by repeat constructor.
  - destruct (String.eqb k' k); by constructor.
Qed.

Lemma cacheKey_nonempty sid tr : sid +:+ ":" +:+ tr <> "".
Proof. by destruct sid. Qed.

Lemma Bounded_cache_delete cfg st k :
  Bounded cfg st ->
  Bounded cfg (set_readCache (cache_delete k (readCache st)) st).
Proof.
  intros [H1 H2 H3]. split; simpl; [by apply cache_delete_keys_nonempty|done|].
  pose proof (cache_delete_length k (readCache st)). lia.
Qed.

Lemma Bounded_fetch_or_join cfg st sid tr key useCache now :
  key <> "" -> Bounded cfg st ->
  Bounded cfg (snd (fetch_or_join st sid tr key useCache now)).
Proof.
  intros Hkey HB. unfold fetch_or_join.
  assert (forall st', Bounded cfg st' ->
            Bounded cfg
              {| readCache := readCache st';
                 inflightReads := if useCache
                                  then <[key := nextPromise st']>
                                         (inflightReads st')
                                  else inflightReads st';
                 promises := <[nextPromise st' :=
                                 ({| fc_key := key; fc_now := now;
                                     fc_useCache := useCache |}, Fetching)]>
                               (promises st');
                 nextPromise := S (nextPromise st');
                 fetchCalls := fetchCalls st' ++ [(sid, tr)] |}) as Hnew.
  { intros st' [H1 H2 H3]. split; simpl; try done.
    intros p fc ph [[<- Heq]|[_ Hp]]%lookup_insert_Some.
    - by inversion Heq; subst.
    - by eapply H2. }
  destruct useCache.
  - destruct (inflightReads st !! key); simpl; [done|]. by apply (Hnew st).
  - simpl. by apply (Hnew _ (Bounded_cache_delete cfg st key HB)).
Qed.

Lemma Bounded_readValues cfg st sid range useCache now :
  Bounded cfg st ->
  Bounded cfg (snd (readValues cfg st sid range useCache now)).
Proof.
  intros HB. unfold readValues.
  destruct (Str.trim <$> range) as [[|a tr]|]; simpl; try done.
  set (key := sid +:+ ":" +:+ String a tr).
  assert (key <> "") as Hkey by apply cacheKey_nonempty.
  destruct useCache; [|by apply Bounded_fetch_or_join].
  destruct (cache_get key (readCache st)) as [entry|] eqn:Hget.
  - destruct (_ <=? _)%Z; simpl.
    + destruct HB as [H1 H2 H3]. split; simpl; [|done|].
      * by apply cache_set_keys_nonempty, cache_delete_keys_nonempty.
      * pose proof (cache_delete_shrinks key _ entry Hget).
        pose proof (cache_set_length key entry
                      (cache_delete key (readCache st))). lia.
    + by apply Bounded_fetch_or_join, Bounded_cache_delete.
  - by apply Bounded_fetch_or_join.
Qed.

Lemma Bounded_resolve cfg st p r : Bounded cfg st -> Bounded cfg (resolve cfg st p r).
Proof.
  intros HB. unfold resolve.
  destruct (promises st !! p) as [[fc [| |]]|] eqn:Hp; try done.
  pose proof HB as [H1 H2 H3].
  assert (forall q fc' ph,
             <[p := (fc, Settled r)]> (promises st) !! q = Some (fc', ph) ->
             fc_key fc' <> "") as Hproms.
  { intros q fc' ph [[<- Heq]|[_ Hq]]%lookup_insert_Some.
    - inversion Heq; subst. by eapply H2.
    - by eapply H2. }
  destruct r as [values|]; [|by split].
  destruct (fc_useCache fc); [|by split].
  split; simpl; [|done|].
  - apply cache_set_keys_nonempty; [by eapply H2|].
    by apply pruneCache_keys_nonempty.
  - pose proof (pruneCache_length cfg (fc_now fc) (readCache st) H1).
    pose proof (cache_set_length (fc_key fc)
                  {| timestamp := fc_now fc; data := values |}
                  (pruneCache cfg (fc_now fc) (readCache st))). lia.
Qed.

Lemma Bounded_finalize cfg st p : Bounded cfg st -> Bounded cfg (finalize st p).
Proof.
  intros HB. unfold finalize.
  destruct (promises st !! p) as [[fc [|r|]]|] eqn:Hp; try done.
  destruct HB as [H1 H2 H3]. split; simpl; try done.
  intros q fc' ph [[<- Heq]|[_ Hq]]%lookup_insert_Some.
  - inversion Heq; subst. by eapply H2.
  - by eapply H2.
Qed.

Lemma Bounded_run cfg evs : forall st, Bounded cfg st -> Bounded cfg (run cfg st evs).
Proof.
  unfold run. induction evs as [|ev evs IH]; simpl; [done|].
  intros st HB. apply IH. destruct ev; simpl;
    auto using Bounded_readValues, Bounded_resolve, Bounded_finalize.
Qed.

(** X12. Whatever the interleaving of calls, settlements and callbacks,
    the cache never holds more than [CACHE_MAX_ENTRIES + 1] entries
    (one entry when the bound is not positive). *)
Theorem X12_cache_size_bounded cfg st :
  reachable cfg st ->
  length (readCache st) <= S (Z.to_nat (CACHE_MAX_ENTRIES cfg)).
Proof.
  intros [evs ->]. apply Bounded_run. split; simpl; [constructor|done|lia].
Qed.

(** ** Reads *)


(** X13. In every reachable state at most one cached fetch per key is
    awaiting its [finally] callback: two different such promises have
    different keys. *)
Theorem X13_one_cached_fetch_per_key cfg st (p q : nat)
    (fc fc' : FetchClosure) (ph ph' : Phase) :
  reachable cfg st ->
  promises st !! p = Some (fc, ph) -> promises st !! q = Some (fc', ph') ->
  fc_useCache fc = true -> fc_useCache fc' = true ->
  live ph = true -> live ph' = true ->
  p <> q ->
  fc_key fc <> fc_key fc'.
Proof.
  intros HI%Inv_reachable Hp Hq Hu Hu' Hl Hl' Hpq Hkey. apply Hpq.
  pose proof (inv_registered st HI p fc ph Hp Hu Hl) as H1.
  pose proof (inv_registered st HI q fc' ph' Hq Hu' Hl') as H2.
  rewrite Hkey in H1. congruence.
Qed.

(** X14. A cached read that finds an entry older than the TTL never
    returns it: the entry is removed and the caller receives a promise,
    that of a fetch already registered for the key if there is one
    (then no fetch is issued), else that of a new fetch. *)
Theorem X14_expired_entry_bypassed cfg st sid range tr (now : Z)
    (e : CacheEntry) :
  Str.trim <$> range = Some tr -> tr <> "" ->
  cache_get (sid +:+ ":" +:+ tr) (readCache st) = Some e ->
  expired cfg now e = true ->
  exists p s1,
    readValues cfg st sid range true now = (Awaiting p, s1) /\
    cache_get (sid +:+ ":" +:+ tr) (readCache s1) = None /\
    match inflightReads st !! (sid +:+ ":" +:+ tr) with
    | Some q => p = q /\ fetchCalls s1 = fetchCalls st
    | None => p = nextPromise st /\
              fetchCalls s1 = fetchCalls st ++ [(sid, tr)]
    end.
Proof.
  intros Htr Hne Hget Hexp. unfold readValues. rewrite Htr.
  destruct tr as [|a tr]; [done|]. rewrite Hget.
  unfold expired in Hexp.
  destruct (Z.leb_spec (now - timestamp e) (CACHE_TTL cfg)) as [Hle|Hgt].
  { apply Z.gtb_lt in Hexp. lia. }
  unfold fetch_or_join. simpl.
  destruct (inflightReads st !! _) as [q|]; simpl;
    eexists _, _; (split; [reflexivity|]); simpl;
    by rewrite cache_get_delete_eq.
Qed.

(** X15. A cached read that finds an entry within the TTL returns its
    rows, issues no fetch, leaves the in-flight registry alone and
    moves the entry to the most-recently-used end of the cache. *)
Theorem X15_cache_hit cfg st sid range tr (now : Z) (e : CacheEntry) :
  Str.trim <$> range = Some tr -> tr <> "" ->
  cache_get (sid +:+ ":" +:+ tr) (readCache st) = Some e ->
  expired cfg now e = false ->
  exists s1,
    readValues cfg st sid range true now = (Returned (data e), s1) /\
    readCache s1 = cache_delete (sid +:+ ":" +:+ tr) (readCache st)
                     ++ [(sid +:+ ":" +:+ tr, e)] /\
    fetchCalls s1 = fetchCalls st /\
    inflightReads s1 = inflightReads st /\
    promises s1 = promises st.
Proof.
  intros Htr Hne Hget Hfresh.
  rewrite (readValues_hit cfg st sid range tr now e Htr Hne Hget Hfresh).
  by eexists.
Qed.

(** X16. A read with [useCache = false] always issues a backend fetch,
    removes the cached entry of the key, and leaves the in-flight
    registry alone; whatever that fetch settles with, the cache and the
    registry are not touched by its callbacks. *)
Theorem X16_uncached_read cfg st sid range tr (now : Z) :
  Str.trim <$> range = Some tr -> tr <> "" ->
  exists s1,
    readValues cfg st sid range false now = (Awaiting (nextPromise st), s1) /\
    fetchCalls s1 = fetchCalls st ++ [(sid, tr)] /\
    readCache s1 = cache_delete (sid +:+ ":" +:+ tr) (readCache st) /\
    inflightReads s1 = inflightReads st /\
    forall r,
      readCache (resolve cfg s1 (nextPromise st) r) = readCache s1 /\
      inflightReads (finalize (resolve cfg s1 (nextPromise st) r)
                       (nextPromise st))
      = inflightReads st.
Proof.
  intros Htr Hne. unfold readValues. rewrite Htr.
  destruct tr as [|a tr]; [done|]. cbn [fetch_or_join].
  unfold fetch_or_join. simpl. eexists. split; [reflexivity|]. simpl.
  split_and!; try done.
  intros r. unfold resolve. simpl. rewrite lookup_insert_eq. simpl.
  split; [by destruct r|].
  unfold finalize. simpl. by rewrite lookup_insert_eq.
Qed.


(** X18. A failed fetch is not cached and does not block the key: once
    its callbacks have run, the next cached read of the key issues a
    new backend fetch. *)
Theorem X18_failure_is_not_cached cfg st sid range tr (p : nat)
    (fc : FetchClosure) (err : string) (now : Z) :
  reachable cfg st ->
  Str.trim <$> range = Some tr -> tr <> "" ->
  promises st !! p = Some (fc, Fetching) ->
  fc_useCache fc = true -> fc_key fc = sid +:+ ":" +:+ tr ->
  let s1 := finalize (resolve cfg st p (Raise err)) p in
  readCache s1 = readCache st /\
  exists s2,
    readValues cfg s1 sid range true now = (Awaiting (nextPromise st), s2) /\
    fetchCalls s2 = fetchCalls st ++ [(sid, tr)].
Proof.
  intros HI%Inv_reachable Htr Hne Hp Hu Hkey s1.
  pose proof (inv_nocache st HI p fc Hp Hu) as Hnone. rewrite Hkey in Hnone.
  assert (readCache s1 = readCache st /\
          inflightReads s1 !! (sid +:+ ":" +:+ tr) = None /\
          nextPromise s1 = nextPromise st /\ fetchCalls s1 = fetchCalls st)
    as (Hc & Hin & Hnext & Hlog).
  { subst s1. unfold resolve. rewrite Hp. unfold finalize. simpl.
    rewrite lookup_insert_eq. simpl. rewrite Hu, Hkey.
    by rewrite lookup_delete_eq. }
  split; [done|].
  destruct (readValues_fetches cfg s1 sid range tr now Htr Hne Hin)
    as (s2 & Hcall & Hlog2 & _).
  { rewrite Hc, Hnone. done. }
  exists s2. by rewrite <- Hnext, <- Hlog.
Qed.

End MoreCacheProps.

(** * Further properties of the service helpers *)

Section MoreServiceProps.
Context `{RT : JsRuntime}.

(** ** Column names *)

Lemma colIdxToA1_loop_value (fuel : nat) :
  forall (m : Z) (acc : string),
    (0 <= m)%Z -> Z.to_nat m <= fuel ->
    a1_value (colIdxToA1_loop fuel m acc)
    = (m * 26 ^ Z.of_nat (String.length acc) + a1_value acc)%Z /\
    (upper_letters acc = true ->
     upper_letters (colIdxToA1_loop fuel m acc) = true).
Proof.
  induction fuel as [|fuel IH]; intros m acc Hm Hfuel.
  - assert (m = 0%Z) as -> by lia. simpl. split; [lia|done].
  - cbn [colIdxToA1_loop].
    destruct (Z.gtb_spec m 0) as [Hpos|Hle].
    + set (m' := (m - 1)%Z).
      assert (0 <= m' mod 26 < 26)%Z as Hmod by (apply Z.mod_pos_bound; lia).
      assert (0 <= m' / 26 <= m')%Z as Hdiv.
      { split; [apply Z.div_pos; lia|].
        apply Z.div_le_upper_bound; lia. }
      destruct (IH (m' / 26)%Z
                  (String (ascii_of_nat (65 + Z.to_nat (m' mod 26))) acc))
        as [Hval Hup]; [lia|lia|].
      assert (nat_of_ascii (ascii_of_nat (65 + Z.to_nat (m' mod 26)))
              = 65 + Z.to_nat (m' mod 26)) as Hcode
        by (apply nat_ascii_embedding; lia).
      split.
      * rewrite Hval. cbn [a1_value String.length]. rewrite Hcode.
        rewrite Nat2Z.inj_succ, Z.pow_succ_r by lia.
        pose proof (Z.div_mod m' 26 ltac:(lia)) as Hdm.
        replace (Z.of_nat (65 + Z.to_nat (m' mod 26)) - 64)%Z
          with (m' mod 26 + 1)%Z by lia.
        assert (m = 26 * (m' / 26) + m' mod 26 + 1)%Z as Hm1
          by (subst m'; lia).
        rewrite Hm1 at 1. ring.
      * intros Hacc. apply Hup. cbn [upper_letters]. rewrite Hcode, Hacc.
        rewrite andb_true_r. apply andb_true_intro.
        split; apply Nat.leb_le; lia.
    + assert (m = 0%Z) as -> by lia. split; [lia|done].
Qed.

(** X19. The name [colIdxToA1] gives to a column index [n >= 0] is a
    non-empty string of upper-case letters that denotes column [n + 1]
    in bijective base 26; so different indices get different names. *)
Theorem X19_colIdxToA1_round_trip (n : Z) :
  (0 <= n)%Z ->
  a1_value (colIdxToA1 n) = (n + 1)%Z /\
  upper_letters (colIdxToA1 n) = true /\
  colIdxToA1 n <> "" /\
  forall n', (0 <= n')%Z -> colIdxToA1 n' = colIdxToA1 n -> n' = n.
Proof.
  intros Hn.
  assert (forall k, (0 <= k)%Z -> a1_value (colIdxToA1 k) = (k + 1)%Z) as Hval.
  { intros k Hk. unfold colIdxToA1.
    destruct (colIdxToA1_loop_value (Z.to_nat (k + 1)) (k + 1) "")
      as [Hv _]; [lia|lia|].
    rewrite Hv. simpl. lia. }
  split_and!.
  - by apply Hval.
  - unfold colIdxToA1.
    by apply (colIdxToA1_loop_value (Z.to_nat (n + 1)) (n + 1) ""); [lia|lia|].
  - intros Hempty. pose proof (Hval n Hn) as Hv. rewrite Hempty in Hv.
    simpl in Hv. lia.
  - intros n' Hn' Heq. pose proof (Hval n' Hn') as Hv.
    rewrite Heq, (Hval n Hn) in Hv. lia.
Qed.

(** ** Ranges *)


(** ** Normalised rows *)

Lemma set_prop_keys_new k (v : jsval) (ps : RowDict) :
  k ∉ ps.*1 -> (set_prop k v ps).*1 = ps.*1 ++ [k].
Proof.
  induction ps as [|[k' v'] ps IH]; [done|].
  rewrite fmap_cons. intros [Hne Hnotin]%not_elem_of_cons. cbn [set_prop fst].
  rewrite (proj2 (String.eqb_neq k' k)) by done.
  rewrite fmap_cons. cbn [fst]. by rewrite IH.
Qed.

Lemma normalize_from_keys (names : list string) :
  NoDup names ->
  forall i raw (acc : RowDict),
    (forall name, name ∈ names -> name ∉ acc.*1) ->
    (normalize_from i (JStr <$> names) raw acc).*1 = acc.*1 ++ names.
Proof.
  induction 1 as [|n0 names Hnotin Hnd IH]; intros i raw acc Hdisj.
  { simpl. by rewrite app_nil_r. }
  cbn [fmap list_fmap normalize_from js_nullish_or js_to_string].
  rewrite IH.
  - rewrite set_prop_keys_new by (apply Hdisj; by left).
    by rewrite <- app_assoc.
  - intros name Hname. rewrite set_prop_keys_new by (apply Hdisj; by left).
    intros [Hin|Hin%list_elem_of_singleton]%elem_of_app.
    + apply (Hdisj name); [by right|done].
    + by subst.
Qed.

(** The cell read under a name is that of the last column so named. *)
Lemma normalize_from_last (names : list string) :
  forall i raw (acc : RowDict) j name,
    names !! j = Some name -> name ∉ drop (S j) names ->
    lookup_prop name (normalize_from i (JStr <$> names) raw acc)
    = default (JStr "") (raw !! j).
Proof.
  induction names as [|n0 names IH]; intros i raw acc j name Hj Hlast; [done|].
  cbn [fmap list_fmap normalize_from js_nullish_or js_to_string].
  destruct j as [|j]; simpl in Hj.
  - injection Hj as ->. cbn [drop] in Hlast. rewrite ?drop_0 in Hlast.
    rewrite normalize_from_other by done.
    rewrite lookup_set_prop_eq. by destruct raw.
  - rewrite (IH _ _ _ j name Hj Hlast). by destruct raw.
Qed.

Lemma normalizeRows_fmap (headers : list jsval) (rawRows : Grid) :
  headers <> [] ->
  normalizeRows headers rawRows
  = (fun row => normalize_from 0 headers row []) <$> rawRows.
Proof.
  intros Hne. unfold normalizeRows.
  destruct rawRows as [|r0 rawRows]; [done|].
  by destruct headers.
Qed.

(** X21. With a header of distinct names, [normalizeRows] yields one
    record per raw row; the keys of each record are exactly the header
    names, and the record holds under each name the cell at that
    position, or the empty string when the raw row is too short (cells
    beyond the header are dropped).  An empty header gives no record. *)
Theorem X21_normalizeRows_shape (names : list string) (rawRows : Grid) :
  NoDup names ->
  (names = [] -> normalizeRows (JStr <$> names) rawRows = []) /\
  (names <> [] ->
   length (normalizeRows (JStr <$> names) rawRows) = length rawRows /\
   forall i raw,
     rawRows !! i = Some raw ->
     exists row,
       normalizeRows (JStr <$> names) rawRows !! i = Some row /\
       (forall key, key ∈ row.*1 <-> key ∈ names) /\
       forall j name,
         names !! j = Some name ->
         lookup_prop name row = default (JStr "") (raw !! j)).
Proof.
  intros Hnd. split.
  - intros ->. unfold normalizeRows. simpl. by rewrite orb_true_r.
  - intros Hne.
    rewrite normalizeRows_fmap by (by destruct names).
    split; [by rewrite length_fmap|].
    intros i raw Hraw. unfold Grid in *.
    rewrite list_lookup_fmap, Hraw. simpl.
    eexists. split; [reflexivity|]. split.
    + intros key. rewrite normalize_from_keys; [done|done|].
      intros name _. apply not_elem_of_nil.
    + intros j name Hj. by apply normalize_from_lookup.
Qed.

(** X22. When a name occurs several times in the header, a normalised
    row holds under that name the cell of the last column so named. *)
Theorem X22_duplicate_header_last_wins
    (names : list string) (raw : list jsval) (j : nat) (name : string) :
  names !! j = Some name -> name ∉ drop (S j) names ->
  lookup_prop name (normalize_from 0 (JStr <$> names) raw [])
  = default (JStr "") (raw !! j).
Proof. apply normalize_from_last. Qed.

(** ** Patched rows *)





(** X24. The edge cases of [updateRows]: a grid without any row is an
    error; a sheet that has only its header row, or whose header row is
    empty, has no data row to match, so nothing is written and the
    result is [{updated: 0, appended: 0}] whatever the where-tree and
    the patch. *)
Theorem X24_updateRows_no_data_rows (headers : list jsval) (body : Grid)
    (sheetName : string) (where_ : jsval) (data : RowDict)
    (updateAll : bool) :
  updateRows [] sheetName where_ data updateAll
  = Raise "Sheet appears empty or unreadable" /\
  updateRows [headers] sheetName where_ data updateAll
  = Ok (None, {| updated := 0; appended := 0 |}) /\
  updateRows ([] :: body) sheetName where_ data updateAll
  = Ok (None, {| updated := 0; appended := 0 |}).
Proof.
  split_and!; [done|done|].
  unfold updateRows, normalizeRows. simpl. by rewrite orb_true_r.
Qed.

(** ** The dedup post-filter *)

Lemma unique_loop_spec (keys : list jsval) (rows : list RowDict) :
  forall seen : gset string,
    let res := unique_loop keys seen rows in
    NoDup (compoundKey keys <$> res) /\
    (forall r, r ∈ res -> compoundKey keys r ∉ seen) /\
    (forall r, r ∈ rows ->
               compoundKey keys r ∈ seen \/
               compoundKey keys r ∈ compoundKey keys <$> res) /\
    (forall pre r post,
        rows = pre ++ r :: post ->
        compoundKey keys r ∉ seen ->
        compoundKey keys r ∉ compoundKey keys <$> pre ->
        r ∈ res).
Proof.
  induction rows as [|row rows IH]; intros seen.
  { simpl. split_and!.
    - constructor.
    - intros r Hr. by apply elem_of_nil in Hr.
    - intros r Hr. by apply elem_of_nil in Hr.
    - intros pre r post Heq. by destruct pre. }
  cbn [unique_loop].
  destruct (decide (compoundKey keys row ∈ seen)) as [Hin|Hnin].
  - destruct (IH seen) as (H1 & H2 & H3 & H4). split_and!; try done.
    + intros r [->|Hr]%elem_of_cons; [by left|by apply H3].
    + intros pre r post Heq Hr Hpre.
      destruct pre as [|r0 pre]; simpl in Heq;
        injection Heq as Hrow Hrows; subst.
      * done.
      * apply (H4 pre r post); [done|done|].
        rewrite fmap_cons in Hpre. by apply not_elem_of_cons in Hpre as [_ ?].
  - destruct (IH ({[compoundKey keys row]} ∪ seen)) as (H1 & H2 & H3 & H4).
    split_and!.
    + rewrite fmap_cons. apply NoDup_cons. split; [|done].
      intros (r & Heq & Hr)%list_elem_of_fmap.
      apply (H2 r Hr). rewrite <- Heq. apply elem_of_union_l.
      by apply elem_of_singleton.
    + intros r [->|Hr]%elem_of_cons; [done|].
      intros Hseen. apply (H2 r Hr). by apply elem_of_union_r.
    + intros r [->|Hr]%elem_of_cons.
      * right. rewrite fmap_cons. by left.
      * destruct (H3 r Hr) as [[Heq%elem_of_singleton|Hs]%elem_of_union|Hres].
        -- right. rewrite fmap_cons, Heq. by left.
        -- by left.
        -- right. rewrite fmap_cons. by right.
    + intros pre r post Heq Hr Hpre.
      destruct pre as [|r0 pre]; simpl in Heq;
        injection Heq as Hrow Hrows; subst.
      * by left.
      * right. rewrite fmap_cons in Hpre.
        apply not_elem_of_cons in Hpre as [Hne Hpre].
        apply (H4 pre r post); [done| |done].
        intros [Heq%elem_of_singleton|Hs]%elem_of_union; done.
Qed.

(** X25. With a [uniqueBy] that is given, the rows [applyUnique] keeps
    have pairwise different compound keys, every compound key of the
    input is the key of a kept row, and the row kept for a key is the
    first input row with that key. *)
Theorem X25_applyUnique_first_of_each_key
    (rows : list RowDict) (uniqueBy : jsval) :
  truthy uniqueBy = true ->
  let key := compoundKey (unique_keys uniqueBy) in
  let res := applyUnique rows uniqueBy in
  NoDup (key <$> res) /\
  (forall r, r ∈ rows -> key r ∈ key <$> res) /\
  (forall pre r post,
      rows = pre ++ r :: post -> key r ∉ key <$> pre -> r ∈ res).
Proof.
  intros Ht key res. subst res. unfold applyUnique. rewrite Ht. simpl.
  fold (unique_keys uniqueBy).
  destruct (unique_loop_spec (unique_keys uniqueBy) rows ∅)
    as (H1 & _ & H3 & H4).
  split_and!; [done| |].
  - intros r Hr. destruct (H3 r Hr) as [Hempty|?]; [|done].
    by apply elem_of_empty in Hempty.
  - intros pre r post Heq Hpre. apply (H4 pre r post); [done| |done].
    apply not_elem_of_empty.
Qed.

Lemma unique_loop_no_keys (seen : gset string) (rows : list RowDict) :
  "" ∈ seen -> unique_loop [] seen rows = [].
Proof.
  intros Hin. induction rows as [|row rows IH]; [done|].
  cbn [unique_loop compoundKey List.map Str.join]. by rewrite decide_True.
Qed.

(** X26. The two empty forms of [uniqueBy] differ: an empty string (or
    any other falsy value) leaves the rows unchanged, while an empty
    key list gives every row the same compound key, so only the first
    row is kept. *)
Theorem X26_applyUnique_empty_forms (rows : list RowDict) :
  applyUnique rows (JStr "") = rows /\
  applyUnique rows JUndefined = rows /\
  applyUnique rows (JArr []) = take 1 rows.
Proof.
  split_and!; [done|done|].
  unfold applyUnique. simpl. destruct rows as [|row rows]; [done|].
  cbn [unique_loop compoundKey List.map Str.join].
  rewrite decide_False by apply not_elem_of_empty.
  rewrite unique_loop_no_keys; [done|].
  apply elem_of_union_l. by apply elem_of_singleton.
Qed.

End MoreServiceProps.

(** * The rows a write addresses *)

Section WriteAddressProps.
Context `{RT : JsRuntime}.














End WriteAddressProps.

(** * Further properties of the request checks *)

Section ControllerProps.
Context `{RT : JsRuntime}.

(** X28. [validateData] accepts its input, and returns it unchanged,
    exactly when it is a plain object with at least one key or a
    non-empty string (whose keys are its indices); null, undefined,
    arrays, empty objects, numbers and booleans are rejected. *)
Theorem X28_validateData_accepts (input : jsval) :
  (forall out, validateData input = Ok out -> out = input) /\
  (validateData input = Ok input <->
   (exists k v ps, input = JObj ((k, v) :: ps)) \/
   (exists a s, input = JStr (String a s))).
Proof.
  unfold validateData. split.
  - intros out.
    destruct (negb (truthy input)); [done|].
    destruct (isArray input); [done|].
    destruct (_ =? _)%nat; [done|]. by intros [= <-].
  - split.
    + intros Hout.
      destruct input as [| |b|n|[|a s]|xs|[|[k v] ps]]; simpl in Hout;
        try discriminate.
      * by destruct b.
      * destruct (num_truthy n); discriminate.
      * right. by exists a, s.
      * left. by exists k, v, ps.
    + by intros [(k & v & ps & ->)|(a & s & ->)].
Qed.

End ControllerProps.

(** * The properties at concrete inputs *)

Section Instances.
Import Ref Ex.

(** C1 (defect of the code). A where-tree that is a single bare
    condition compiles to the always-true predicate: the condition
    [name eq "x"] is not satisfied by the row [{name: "y"}], yet the
    compiled predicate accepts it, as it accepts every row. *)
Theorem C1_bare_condition_ignored :
  matchCondition [("name", JStr "y")] bare = Ok false /\
  forall row : RowDict, buildPredicate bare row = Ok true.
Proof. split; [reflexivity|]. intros row. reflexivity. Qed.

(** C6 (defect of the code). An [in] condition whose [values] is a
    string raises a [TypeError] on every row instead of evaluating to
    false. *)
Theorem C6_in_with_string_values_raises (row : RowDict) :
  matchCondition row in_string
  = Raise "TypeError: options.some is not a function".
Proof. by apply matchCondition_in_string_values. Qed.

Lemma C3_compare_gt_witness :
  compare (RT := runtime) (JNum 3%Z) (JStr "2") "gt" = true /\
  compare (RT := runtime) (JStr "b") (JNum 1%Z) "gt" = true.
Proof.
  split.
  - destruct (proj1 (C3_compare_gt (RT := runtime) (JNum 3%Z) (JStr "2"))
                eq_refl) as (x & y & Hx & Hy & ->).
    change (Some 3%Z = Some x) in Hx. change (Some 2%Z = Some y) in Hy.
    injection Hx as <-. injection Hy as <-. reflexivity.
  - rewrite (proj1 (proj2 (C3_compare_gt (RT := runtime)
                             (JStr "b") (JNum 1%Z)))
               eq_refl eq_refl eq_refl).
    reflexivity.
Defined.

(** C4 (defect of the code). With [CACHE_MAX_ENTRIES = 2] and two
    fresh entries cached, a third successful cached fetch leaves three
    entries in the cache: the least recently used one is not evicted. *)
Theorem C4_cache_exceeds_capacity :
  List.map fst (readCache (run cfg initial (take 6 three_reads)))
  = ["s:A"; "s:B"] /\
  List.map fst (readCache (run cfg initial three_reads))
  = ["s:A"; "s:B"; "s:C"].
Proof. split; vm_compute; reflexivity. Qed.

(** C5 (defect of the code). The row satisfies the [and] group, so the
    combination rule makes the predicate true whatever the [or] group
    holds, and the [and] group alone does accept the row; with an [or]
    group whose [in] condition carries a string for [values] the
    predicate raises a [TypeError] instead: both groups are evaluated
    before they are combined, and that condition raises. *)
Theorem C5_malformed_or_condition_raises :
  combination_rule (matches adult)
    (asArray (get_prop adult_or_listed "and"))
    (asArray (get_prop adult_or_listed "or")) = true /\
  buildPredicate adults_only adult = Ok true /\
  buildPredicate adult_or_listed adult
  = Raise "TypeError: options.some is not a function".
Proof. split_and!; reflexivity. Qed.

(** The specification's example of the rule. *)
Lemma buildPredicate_combination_example :
  buildPredicate adult_or_vip minor_vip = Ok true /\
  buildPredicate adult_or_vip minor = Ok false.
Proof.
  split.
  - rewrite (buildPredicate_combination adult_or_vip minor_vip);
      [reflexivity | reflexivity | repeat constructor..].
  - rewrite (buildPredicate_combination adult_or_vip minor);
      [reflexivity | reflexivity | repeat constructor..].
Qed.

Lemma C9_readValues_blank_range_witness :
  readValues cfg initial "s" (Some "  ") true 0
  = (Thrown "Range must be a non-empty string", initial).
Proof.
  apply (C9_readValues_blank_range cfg initial "s" (Some "  ") true 0).
  reflexivity.
Defined.

Lemma C2_single_flight_witness :
  exists p s1,
    readValues cfg initial "s" (Some " A ") true 0 = (Awaiting p, s1) /\
    fetchCalls s1 = fetchCalls initial ++ [("s", "A")] /\
    forall evs1,
      Forall (fun ev => forall r, ev <> EvResolve p r) evs1 ->
      let s2 := run cfg s1 evs1 in
      (forall now2,
          readValues cfg s2 "s" (Some " A ") true now2 = (Awaiting p, s2)) /\
      forall r evs2,
        Forall (fun ev => ev <> EvFinalize p) evs2 ->
        let s3 := run cfg (resolve cfg s2 p r) evs2 in
        promise_result s3 p = Some r /\
        promise_result (finalize s3 p) p = Some r /\
        inflightReads (finalize s3 p) !! ("s" +:+ ":" +:+ "A") = None.
Proof.
  apply (C2_single_flight cfg initial "s" (Some " A ") "A" 0).
  - by exists [].
  - reflexivity.
  - discriminate.
  - reflexivity.
  - intros e He. discriminate He.
Defined.


End Instances.

(** * The further properties at concrete inputs *)

Section MoreInstances.
Import Ref Ex Ex2.

Lemma X1_booleans_are_not_ordered_witness :
  compare (RT := runtime) (JBool true) (JStr "yes") "eq" = true /\
  compare (RT := runtime) (JBool true) (JStr "yes") "gt" = false.
Proof.
  pose proof (X1_booleans_are_not_ordered (RT := runtime)
                (JBool true) (JStr "yes") true true eq_refl
                (or_introl eq_refl) (or_introl eq_refl) eq_refl eq_refl)
    as (Heq & _ & Hgt & _).
  split; [exact Heq | exact Hgt].
Defined.

Lemma X2_datetimes_never_equal_witness :
  compare (RT := runtime) (JStr "2020-06-01") (JStr "2020-06-01") "eq" = false.
Proof.
  exact (proj1 (X2_datetimes_never_equal (RT := runtime)
                  (JStr "2020-06-01") (JStr "2020-06-01")
                  1590969600000%Z 1590969600000%Z eq_refl eq_refl eq_refl)).
Defined.

Lemma X3_nullish_pair_witness :
  compare (RT := runtime) JNull (JStr "") "gte" = false.
Proof.
  exact (X3_nullish_pair (RT := runtime) JNull (JStr "") "gte" eq_refl eq_refl).
Defined.

Lemma X4_null_against_text_witness :
  compare (RT := runtime) JNull (JStr "undefined") "eq" = false /\
  compare (RT := runtime) JUndefined (JStr "undefined") "eq" = true.
Proof.
  apply (X4_null_against_text (RT := runtime) "undefined"). discriminate.
Defined.

Lemma X5_between_numbers_witness :
  between (RT := runtime) (JNum 5%Z) (JNum 1%Z) (JNum 10%Z) = true.
Proof.
  exact (X5_between_numbers (RT := runtime) (JNum 5%Z) (JNum 1%Z) (JNum 10%Z)
           5%Z 1%Z 10%Z eq_refl eq_refl eq_refl eq_refl eq_refl).
Defined.

Lemma X6_like_ignores_ascii_case_witness :
  like (RT := runtime) (JStr "Ab") (JStr "Ab") = true.
Proof.
  exact (proj1 (proj2 (X6_like_ignores_ascii_case (RT := runtime) "Ab" "b"))
           ltac:(discriminate)).
Defined.


Lemma X8_negated_operators_witness :
  exists b,
    matchCondition (row_a JNull)
      (JObj (("operator", JStr "is_null") :: field_a [])) = Ok b /\
    matchCondition (row_a JNull)
      (JObj (("operator", JStr "is_not_null") :: field_a [])) = Ok (negb b).
Proof.
  exact (proj1 (X8_negated_operators (row_a JNull) (field_a [])
                  eq_refl eq_refl eq_refl)).
Defined.



Lemma X11_pruneCache_keeps_newest_witness :
  pruneCache cfg 5 [("a", entry 0); ("b", entry 1); ("c", entry 2)]
  = [("b", entry 1); ("c", entry 2)].
Proof.
  apply (X11_pruneCache_keeps_newest cfg 5
           [("a", entry 0); ("b", entry 1); ("c", entry 2)]).
  repeat (apply Forall_cons_2; [discriminate|]). apply Forall_nil_2.
Defined.

Lemma X12_cache_size_bounded_witness :
  length (readCache (run cfg initial three_reads)) <= 3.
Proof.
  apply (X12_cache_size_bounded cfg (run cfg initial three_reads)).
  by exists three_reads.
Defined.

Lemma X13_one_cached_fetch_per_key_witness :
  fc_key pending_closure <> fc_key second_closure.
Proof.
  apply (X13_one_cached_fetch_per_key cfg two_pending 0 1
           pending_closure second_closure Fetching Fetching);
    try reflexivity.
  - by exists [EvCall "s" (Some "A") true 0%Z; EvCall "s" (Some "B") true 1%Z].
  - discriminate.
Defined.

Lemma X14_expired_entry_bypassed_witness :
  exists p s1,
    readValues cfg cached "s" (Some "A") true 20000 = (Awaiting p, s1) /\
    cache_get "s:A" (readCache s1) = None /\
    p = 0 /\ fetchCalls s1 = [("s", "A")].
Proof.
  apply (X14_expired_entry_bypassed cfg cached "s" (Some "A") "A" 20000
           (entry 0)); try reflexivity.
  discriminate.
Defined.

Lemma X15_cache_hit_witness :
  exists s1,
    readValues cfg cached "s" (Some "A") true 5 = (Returned fetched, s1) /\
    readCache s1 = [("s:A", entry 0)] /\
    fetchCalls s1 = [] /\
    inflightReads s1 = ∅ /\
    promises s1 = ∅.
Proof.
  apply (X15_cache_hit cfg cached "s" (Some "A") "A" 5 (entry 0));
    try reflexivity.
  discriminate.
Defined.

Lemma X16_uncached_read_witness :
  exists s1,
    readValues cfg cached "s" (Some "A") false 5 = (Awaiting 0, s1) /\
    fetchCalls s1 = [("s", "A")] /\
    readCache s1 = [] /\
    inflightReads s1 = ∅ /\
    forall r,
      readCache (resolve cfg s1 0 r) = readCache s1 /\
      inflightReads (finalize (resolve cfg s1 0 r) 0) = ∅.
Proof.
  apply (X16_uncached_read cfg cached "s" (Some "A") "A" 5);
    [reflexivity|discriminate].
Defined.


Lemma X18_failure_is_not_cached_witness :
  let s1 := finalize (resolve cfg pending 0 (Raise "quota")) 0 in
  readCache s1 = readCache pending /\
  exists s2,
    readValues cfg s1 "s" (Some "A") true 7 = (Awaiting 1, s2) /\
    fetchCalls s2 = fetchCalls pending ++ [("s", "A")].
Proof.
  apply (X18_failure_is_not_cached cfg pending "s" (Some "A") "A" 0
           pending_closure "quota" 7); try reflexivity.
  - by exists [EvCall "s" (Some "A") true 0%Z].
  - discriminate.
Defined.

Lemma X19_colIdxToA1_round_trip_witness :
  a1_value (colIdxToA1 27) = 28%Z /\
  upper_letters (colIdxToA1 27) = true /\
  colIdxToA1 27 <> "" /\
  forall n', (0 <= n')%Z -> colIdxToA1 n' = colIdxToA1 27 -> n' = 27%Z.
Proof. apply (X19_colIdxToA1_round_trip 27). lia. Defined.

Lemma names_distinct : NoDup ["id"; "name"].
Proof.
  apply NoDup_cons. split; [|apply NoDup_singleton].
  by intros ?%list_elem_of_singleton.
Defined.

Lemma X21_normalizeRows_shape_witness :
  length (normalizeRows (JStr <$> ["id"; "name"]) (tl sheet)) = 3.
Proof.
  exact (proj1 (proj2 (X21_normalizeRows_shape ["id"; "name"] (tl sheet)
                         names_distinct) ltac:(discriminate))).
Defined.

Lemma X22_duplicate_header_last_wins_witness :
  lookup_prop "a" (normalize_from 0 (JStr <$> ["a"; "a"]) one_two [])
  = JNum 2%Z.
Proof.
  apply (X22_duplicate_header_last_wins ["a"; "a"] one_two 1 "a");
    [reflexivity|apply not_elem_of_nil].
Defined.


Lemma X25_applyUnique_first_of_each_key_witness :
  NoDup (compoundKey [JStr "id"] <$> applyUnique people (JStr "id")).
Proof.
  exact (proj1 (X25_applyUnique_first_of_each_key people (JStr "id") eq_refl)).
Defined.


(** ** Writes *)





End MoreInstances.
